(** * World Coffee Tour: the client-side map tile prefetcher and the post store

    A shallow embedding of the tile prefetching code of the index-page map
    script (functions [prefetchTilesForCoffeePosts], [prefetchBoundsAtZoom],
    [getTileBounds], [prefetchTile] and the marker loop), and of the post
    store's deduplicating import, with the properties proved about them. *)

From Stdlib Require Import ZArith Reals Lra Lia List String Ascii Bool Sorted Ratan Permutation.
Import ListNotations.

(** ** JavaScript numbers

    A JavaScript number is a finite value, NaN, or one of the two
    infinities.  Finite values are modelled by exact reals (the rounding of
    binary64 arithmetic is not modelled); zero is +0. *)

Inductive num : Type :=
| Fin (r : R)
| NaN
| PInf
| NInf.

Definition R_sign (r : R) : comparison :=
  match total_order_T r 0 with
  | inleft (left _) => Lt
  | inleft (right _) => Eq
  | inright _ => Gt
  end.

(** The infinity of a given sign; a zero factor gives NaN. *)
Definition signed_inf (c : comparison) : num :=
  match c with Gt => PInf | Lt => NInf | Eq => NaN end.

Definition js_neg (a : num) : num :=
  match a with
  | Fin x => Fin (- x)
  | NaN => NaN
  | PInf => NInf
  | NInf => PInf
  end.

Definition js_add (a b : num) : num :=
  match a, b with
  | NaN, _ | _, NaN => NaN
  | Fin x, Fin y => Fin (x + y)
  | PInf, NInf | NInf, PInf => NaN
  | PInf, _ | _, PInf => PInf
  | NInf, _ | _, NInf => NInf
  end.

Definition js_sub (a b : num) : num := js_add a (js_neg b).

Definition js_mul (a b : num) : num :=
  match a, b with
  | NaN, _ | _, NaN => NaN
  | Fin x, Fin y => Fin (x * y)
  | Fin x, PInf | PInf, Fin x => signed_inf (R_sign x)
  | Fin x, NInf | NInf, Fin x => signed_inf (CompOpp (R_sign x))
  | PInf, PInf | NInf, NInf => PInf
  | PInf, NInf | NInf, PInf => NInf
  end.

Definition js_div (a b : num) : num :=
  match a, b with
  | NaN, _ | _, NaN => NaN
  | Fin x, Fin y =>
      match R_sign y with
      | Eq => signed_inf (R_sign x)
      | _ => Fin (x / y)
      end
  | Fin _, PInf | Fin _, NInf => Fin 0
  | PInf, Fin y => match R_sign y with Lt => NInf | _ => PInf end
  | NInf, Fin y => match R_sign y with Lt => PInf | _ => NInf end
  | _, _ => NaN
  end.

(** [Math.log]: NaN below zero, -Infinity at zero. *)
Definition Math_log (a : num) : num :=
  match a with
  | Fin x => match R_sign x with Gt => Fin (ln x) | Eq => NInf | Lt => NaN end
  | PInf => PInf
  | NInf | NaN => NaN
  end.

Definition Math_tan (a : num) : num :=
  match a with Fin x => Fin (tan x) | _ => NaN end.

Definition Math_cos (a : num) : num :=
  match a with Fin x => Fin (cos x) | _ => NaN end.

Definition Math_PI : num := Fin PI.

(** [Math.pow(2, zoom)] for the non-negative integer zoom levels used. *)
Definition Math_pow2 (zoom : nat) : num := Fin (2 ^ zoom).

(** Integral JavaScript numbers, as [Math.floor] returns them: an integer,
    NaN, or an infinity. *)
Inductive int_num : Type :=
| JInt (z : Z)
| INaN
| IPInf
| INInf.

Definition Math_floor (a : num) : int_num :=
  match a with
  | Fin x => JInt (Int_part x)
  | NaN => INaN
  | PInf => IPInf
  | NInf => INInf
  end.

(** The comparison [a <= b]: false as soon as one side is NaN. *)
Definition int_le (a b : int_num) : bool :=
  match a, b with
  | INaN, _ | _, INaN => false
  | _, IPInf => true
  | IPInf, _ => false
  | INInf, _ => true
  | _, INInf => false
  | JInt x, JInt y => Z.leb x y
  end.

Definition Math_min (a b : int_num) : int_num :=
  match a, b with
  | INaN, _ | _, INaN => INaN
  | _, _ => if int_le a b then a else b
  end.

Definition Math_max (a b : int_num) : int_num :=
  match a, b with
  | INaN, _ | _, INaN => INaN
  | _, _ => if int_le a b then b else a
  end.

(** [x++] *)
Definition int_incr (a : int_num) : int_num :=
  match a with JInt z => JInt (z + 1) | other => other end.

Definition int_add (a b : int_num) : int_num :=
  match a, b with
  | INaN, _ | _, INaN => INaN
  | JInt x, JInt y => JInt (x + y)
  | IPInf, INInf | INInf, IPInf => INaN
  | IPInf, _ | _, IPInf => IPInf
  | INInf, _ | _, INInf => INInf
  end.

(** [a % d] for a finite non-zero divisor [d]: the remainder takes the sign
    of the dividend; an infinite or NaN dividend gives NaN. *)
Definition int_rem (a : int_num) (d : Z) : int_num :=
  match a with JInt x => JInt (Z.rem x d) | _ => INaN end.

(** Number-to-string conversion of integral numbers (decimal notation; the
    exponent notation JavaScript uses from 10^21 on is not modelled). *)
Fixpoint string_of_uint (d : Decimal.uint) : string :=
  match d with
  | Decimal.Nil => EmptyString
  | Decimal.D0 d => String "0" (string_of_uint d)
  | Decimal.D1 d => String "1" (string_of_uint d)
  | Decimal.D2 d => String "2" (string_of_uint d)
  | Decimal.D3 d => String "3" (string_of_uint d)
  | Decimal.D4 d => String "4" (string_of_uint d)
  | Decimal.D5 d => String "5" (string_of_uint d)
  | Decimal.D6 d => String "6" (string_of_uint d)
  | Decimal.D7 d => String "7" (string_of_uint d)
  | Decimal.D8 d => String "8" (string_of_uint d)
  | Decimal.D9 d => String "9" (string_of_uint d)
  end.

Definition string_of_Z (z : Z) : string :=
  match Z.to_int z with
  | Decimal.Pos u => string_of_uint u
  | Decimal.Neg u => String "-" (string_of_uint u)
  end.

Definition string_of_int_num (a : int_num) : string :=
  match a with
  | JInt z => string_of_Z z
  | INaN => "NaN"
  | IPInf => "Infinity"
  | INInf => "-Infinity"
  end.

(** ** The Leaflet values the code uses

    [L.latLng] (a pair of finite numbers; Leaflet rejects NaN), and
    [L.latLngBounds], whose corners are kept as the south-west minimum and
    the north-east maximum of the points it was extended with. *)

Record LatLng : Type := mkLatLng { lat : R; lng : R }.

Record LatLngBounds : Type := mkBounds { southWest : LatLng; northEast : LatLng }.

Definition getSouthWest (b : LatLngBounds) : LatLng := southWest b.
Definition getNorthEast (b : LatLngBounds) : LatLng := northEast b.

(** [LatLngBounds.extend] with one point. *)
Definition extend (b : LatLngBounds) (p : LatLng) : LatLngBounds :=
  mkBounds (mkLatLng (Rmin (lat (southWest b)) (lat p)) (Rmin (lng (southWest b)) (lng p)))
           (mkLatLng (Rmax (lat (northEast b)) (lat p)) (Rmax (lng (northEast b)) (lng p))).

(** [L.latLngBounds(coords)] on a non-empty array of points: the first point
    gives both corners, every further point extends them. *)
Definition latLngBounds (p : LatLng) (ps : list LatLng) : LatLngBounds :=
  fold_left extend ps (mkBounds p p).

(** [LatLngBounds.pad(bufferRatio)]. *)
Definition pad (b : LatLngBounds) (bufferRatio : R) : LatLngBounds :=
  let sw := southWest b in
  let ne := northEast b in
  let heightBuffer := (Rabs (lat sw - lat ne) * bufferRatio)%R in
  let widthBuffer := (Rabs (lng sw - lng ne) * bufferRatio)%R in
  extend (mkBounds (mkLatLng (lat sw - heightBuffer) (lng sw - widthBuffer))
                   (mkLatLng (lat sw - heightBuffer) (lng sw - widthBuffer)))
         (mkLatLng (lat ne + heightBuffer) (lng ne + widthBuffer)).

(** ** [getTileBounds] *)

Record Point : Type := mkPoint { px : int_num; py : int_num }.

Record TileBounds : Type := mkTileBounds { tmin : Point; tmax : Point }.

(** [Math.floor((p.lng + 180) / 360 * Math.pow(2, zoom))] *)
Definition tileX (p : LatLng) (zoom : nat) : int_num :=
  Math_floor (js_mul (js_div (js_add (Fin (lng p)) (Fin 180)) (Fin 360)) (Math_pow2 zoom)).

(** [Math.floor((1 - Math.log(Math.tan(p.lat * Math.PI / 180)
                 + 1 / Math.cos(p.lat * Math.PI / 180)) / Math.PI) / 2
                 * Math.pow(2, zoom))] *)
Definition tileY (p : LatLng) (zoom : nat) : int_num :=
  let a := js_div (js_mul (Fin (lat p)) Math_PI) (Fin 180) in
  Math_floor
    (js_mul
       (js_div
          (js_sub (Fin 1)
                  (js_div (Math_log (js_add (Math_tan a) (js_div (Fin 1) (Math_cos a))))
                          Math_PI))
          (Fin 2))
       (Math_pow2 zoom)).

Definition getTileBounds (bounds : LatLngBounds) (zoom : nat) : TileBounds :=
  let sw := getSouthWest bounds in
  let ne := getNorthEast bounds in
  let swPoint := mkPoint (tileX sw zoom) (tileY sw zoom) in
  let nePoint := mkPoint (tileX ne zoom) (tileY ne zoom) in
  mkTileBounds (mkPoint (Math_min (px swPoint) (px nePoint)) (Math_min (py swPoint) (py nePoint)))
               (mkPoint (Math_max (px swPoint) (px nePoint)) (Math_max (py swPoint) (py nePoint))).

(** The standard slippy-map tile index of a point, written as the usual
    real-valued formula (defined for latitudes strictly between -90 and 90). *)
Definition slippy_x (lon : R) (zoom : nat) : Z :=
  Int_part ((lon + 180) / 360 * 2 ^ zoom).

Definition slippy_y (la : R) (zoom : nat) : Z :=
  Int_part ((1 - ln (tan (la * PI / 180) + 1 / cos (la * PI / 180)) / PI) / 2 * 2 ^ zoom).

(** ** Tiles and the tile enumeration of [prefetchBoundsAtZoom] *)

Record Tile : Type := mkTile { tx : int_num; ty : int_num; tz : nat }.

(** [for (let y = tileBounds.min.y; y <= tileBounds.max.y; y++)
       tiles.push({x, y, z: zoom});]
    run with a bound on the number of iterations; [None] when the bound is
    exhausted (a loop that does not stop). *)
Fixpoint loop_y (fuel : nat) (x y hi : int_num) (zoom : nat) : option (list Tile) :=
  match fuel with
  | O => None
  | S f =>
      if int_le y hi then
        match loop_y f x (int_incr y) hi zoom with
        | Some ts => Some (mkTile x y zoom :: ts)
        | None => None
        end
      else Some []
  end.

(** The outer loop over [x]. *)
Fixpoint loop_x (fuel : nat) (x hi lo_y hi_y : int_num) (zoom : nat) : option (list Tile) :=
  match fuel with
  | O => None
  | S f =>
      if int_le x hi then
        match loop_y fuel x lo_y hi_y zoom, loop_x f (int_incr x) hi lo_y hi_y zoom with
        | Some r, Some rs => Some (r ++ rs)
        | _, _ => None
        end
      else Some []
  end.

Definition enumerateTiles (fuel : nat) (tb : TileBounds) (zoom : nat) : option (list Tile) :=
  loop_x fuel (px (tmin tb)) (px (tmax tb)) (py (tmin tb)) (py (tmax tb)) zoom.

Definition maxTiles : nat := 20.

(** ** [prefetchTile]

    The image requests and the timers of the prefetch pass run in a small
    event-loop model: a runtime state holds the clock (in milliseconds), the
    pending [setTimeout] timers and the trace of what was issued.  Each
    request is labelled with the batch (the [prefetchBoundsAtZoom] call, in
    call order) and the index in that batch's [tilesToFetch] it comes from. *)

Inductive event : Type :=
| Request (time : Z) (batch : nat) (index : nat) (t : Tile) (url : string)
| Resolve (time : Z) (batch : nat).

Record Timer : Type := mkTimer {
  due : Z;
  t_batch : nat;
  t_tiles : list Tile;
  t_index : nat
}.

Record Runtime : Type := mkRuntime {
  clock : Z;
  timers : list Timer;
  trace : list event
}.

Definition emit (e : event) (st : Runtime) : Runtime :=
  mkRuntime (clock st) (timers st) (trace st ++ [e]).

(** [setTimeout(f, delay)]: a timer due [delay] ms from now. *)
Definition setTimeout (delay : Z) (batch : nat) (tiles : list Tile) (index : nat)
    (st : Runtime) : Runtime :=
  mkRuntime (clock st) (timers st ++ [mkTimer (clock st + delay) batch tiles index]) (trace st).

Definition subdomains : list string := ["a"; "b"; "c"; "d"]%string.

(** [subdomains[i]] inside a template literal: an index outside the array
    (negative, too large, NaN) reads [undefined], printed "undefined". *)
Definition subdomain_at (i : int_num) : string :=
  match i with
  | JInt k =>
      if Z.leb 0 k then
        match nth_error subdomains (Z.to_nat k) with
        | Some s => s
        | None => "undefined"%string
        end
      else "undefined"%string
  | _ => "undefined"%string
  end.

(** The URL built by [prefetchTile(x, y, z)]. *)
Definition tileUrl (x y : int_num) (z : nat) : string :=
  let subdomain := subdomain_at (int_rem (int_add x y) (Z.of_nat (List.length subdomains))) in
  ("https://" ++ subdomain ++ ".basemaps.cartocdn.com/dark_all/"
   ++ string_of_Z (Z.of_nat z) ++ "/" ++ string_of_int_num x ++ "/"
   ++ string_of_int_num y ++ ".png")%string.

(** The two image handlers; their bodies are empty. *)
Definition onload (st : Runtime) : Runtime := st.
Definition onerror (st : Runtime) : Runtime := st.

(** [prefetchTile]: issue the image request, then run the handler the
    outcome of the load selects ([ok t] is whether the tile loads). *)
Definition prefetchTile (ok : Tile -> bool) (batch index : nat) (t : Tile)
    (st : Runtime) : Runtime :=
  let url := tileUrl (tx t) (ty t) (tz t) in
  let st1 := emit (Request (clock st) batch index t url) st in
  if ok t then onload st1 else onerror st1.

(** [prefetchNext]: the closure over [index] and [tilesToFetch].  The case
    [index >= tilesToFetch.length] is the [None] of [nth_error]. *)
Definition prefetchNext (ok : Tile -> bool) (batch : nat) (tilesToFetch : list Tile)
    (index : nat) (st : Runtime) : Runtime :=
  match nth_error tilesToFetch index with
  | None => emit (Resolve (clock st) batch) st
  | Some tile =>
      let st1 := prefetchTile ok batch index tile st in
      setTimeout 50 batch tilesToFetch (S index) st1
  end.

(** The event loop: the pending timer with the earliest due time fires
    first, timers due at the same time in the order they were set.  Timers
    fire exactly at their due time. *)
Fixpoint pick_due (d : Z) (q : list Timer) : option (Timer * list Timer) :=
  match q with
  | [] => None
  | tm :: q' =>
      if Z.eqb (due tm) d then Some (tm, q')
      else match pick_due d q' with
           | Some (t, r) => Some (t, tm :: r)
           | None => None
           end
  end.

Definition pick (q : list Timer) : option (Timer * list Timer) :=
  match q with
  | [] => None
  | tm :: q' => pick_due (fold_left (fun m t => Z.min m (due t)) q' (due tm)) q
  end.

Fixpoint run_timers (ok : Tile -> bool) (steps : nat) (st : Runtime) : Runtime :=
  match steps with
  | O => st
  | S n =>
      match pick (timers st) with
      | None => st
      | Some (tm, rest) =>
          run_timers ok n
            (prefetchNext ok (t_batch tm) (t_tiles tm) (t_index tm)
               (mkRuntime (due tm) rest (trace st)))
      end
  end.

(** ** [prefetchBoundsAtZoom]: the synchronous part of the promise executor.
    [None] when the tile enumeration does not stop within [fuel] rounds. *)
Definition prefetchBoundsAtZoom (ok : Tile -> bool) (mainTileLayer : bool) (fuel : nat)
    (batch : nat) (bounds : LatLngBounds) (zoom : nat) (st : Runtime) : option Runtime :=
  if negb mainTileLayer then Some (emit (Resolve (clock st) batch) st)
  else
    let tileBounds := getTileBounds bounds zoom in
    match enumerateTiles fuel tileBounds zoom with
    | None => None
    | Some tiles =>
        let tilesToFetch := firstn maxTiles tiles in
        Some (prefetchNext ok batch tilesToFetch 0 st)
    end.

(** ** Posts, strings and the grouping of [prefetchTilesForCoffeePosts] *)

(** A post of [coffeePostsData]: [None] is a field that is null or
    undefined. *)
Record Post : Type := mkPost {
  latitude : option R;
  longitude : option R;
  continent : option string;
  country : option string;
  city : option string
}.

(** Truthiness of a number field: null, undefined and 0 are falsy. *)
Definition truthy_num (v : option R) : bool :=
  match v with
  | None => false
  | Some r => match R_sign r with Eq => false | _ => true end
  end.

(** Truthiness of a string field: null, undefined and the empty string are falsy. *)
Definition truthy_str (v : option string) : bool :=
  match v with
  | None => false
  | Some s => negb (String.eqb s EmptyString)
  end.

Definition ascii_toLower (c : ascii) : ascii :=
  let n := nat_of_ascii c in
  if (Nat.leb 65 n && Nat.leb n 90)%bool then ascii_of_nat (n + 32) else c.

(** [String.prototype.toLowerCase] on ASCII text. *)
Fixpoint toLowerCase (s : string) : string :=
  match s with
  | EmptyString => EmptyString
  | String c s' => String (ascii_toLower c) (toLowerCase s')
  end.

(** The ASCII characters of the class [\s]. *)
Definition is_space (c : ascii) : bool :=
  let n := nat_of_ascii c in
  (Nat.eqb n 32 || (Nat.leb 9 n && Nat.leb n 13))%bool.

(** [s.replace(/\s/g, '-')] *)
Fixpoint replaceSpaces (s : string) : string :=
  match s with
  | EmptyString => EmptyString
  | String c s' => String (if is_space c then "-"%char else c) (replaceSpaces s')
  end.

(** A plain object used as a map from strings to arrays of points, with its
    own properties in creation order. *)
Definition Obj : Type := list (string * list LatLng).

Fixpoint obj_get (k : string) (o : Obj) : option (list LatLng) :=
  match o with
  | [] => None
  | (k', v) :: o' => if String.eqb k k' then Some v else obj_get k o'
  end.

Fixpoint obj_push (k : string) (p : LatLng) (o : Obj) : Obj :=
  match o with
  | [] => []
  | (k', v) :: o' =>
      if String.eqb k k' then (k', v ++ [p]) :: o' else (k', v) :: obj_push k p o'
  end.

(** The properties every plain object inherits from [Object.prototype]: for
    such a key, [obj[key]] is truthy although the object does not own it. *)
Definition proto_keys : list string :=
  ["constructor"; "__proto__"; "hasOwnProperty"; "isPrototypeOf";
   "propertyIsEnumerable"; "toString"; "valueOf"; "toLocaleString";
   "__defineGetter__"; "__defineSetter__"; "__lookupGetter__";
   "__lookupSetter__"]%string.

(** [if (!o[k]) o[k] = []; o[k].push(p);]  [None] is the TypeError thrown
    when [o[k]] is an inherited method, which has no [push]. *)
Definition group_push (o : Obj) (k : string) (p : LatLng) : option Obj :=
  match obj_get k o with
  | Some _ => Some (obj_push k p o)
  | None =>
      if existsb (String.eqb k) proto_keys then None
      else Some (o ++ [(k, [p])])
  end.

(** [Object.entries]: the array-index keys ("0", "1", ..., canonical decimal
    below 2^32 - 1) in ascending numeric order, then the other keys in
    creation order. *)
Fixpoint digits_value (s : string) (acc : Z) : option Z :=
  match s with
  | EmptyString => Some acc
  | String c s' =>
      let n := nat_of_ascii c in
      if (Nat.leb 48 n && Nat.leb n 57)%bool
      then digits_value s' (acc * 10 + Z.of_nat (n - 48))
      else None
  end.

Definition array_index (s : string) : option Z :=
  match s with
  | EmptyString => None
  | String "0" EmptyString => Some 0%Z
  | String "0" _ => None
  | _ =>
      match digits_value s 0 with
      | Some v => if Z.ltb v 4294967295 then Some v else None
      | None => None
      end
  end.

Definition index_of_entry (e : string * list LatLng) : Z :=
  match array_index (fst e) with Some v => v | None => 0%Z end.

Fixpoint insert_by_index (e : string * list LatLng) (l : Obj) : Obj :=
  match l with
  | [] => [e]
  | e' :: l' =>
      if Z.leb (index_of_entry e) (index_of_entry e') then e :: l
      else e' :: insert_by_index e l'
  end.

Definition is_index_key (e : string * list LatLng) : bool :=
  match array_index (fst e) with Some _ => true | None => false end.

Definition entries (o : Obj) : Obj :=
  fold_right insert_by_index [] (filter is_index_key o)
  ++ filter (fun e => negb (is_index_key e)) o.

Record Groups : Type := mkGroups {
  regions : Obj;
  countries : Obj;
  cities : Obj
}.

(** [if (k && k !== skip) { if (!o[k]) o[k] = []; o[k].push(pt); }] *)
Definition group_into (o : Obj) (k : option string) (skip : string) (pt : LatLng) : option Obj :=
  match k with
  | Some s => if (truthy_str k && negb (String.eqb s skip))%bool
              then group_push o s pt else Some o
  | None => Some o
  end.

(** The body of [coffeePosts.forEach(post => ...)] that groups the post. *)
Definition group_post (g : Groups) (post : Post) : option Groups :=
  if negb (truthy_num (latitude post) && truthy_num (longitude post)) then Some g
  else
    match latitude post, longitude post with
    | Some la, Some lo =>
        let pt := mkLatLng la lo in
        let continent := option_map (fun s => replaceSpaces (toLowerCase s)) (continent post) in
        let country := country post in
        let city := city post in
        match group_into (regions g) continent "unknown"%string pt with
        | None => None
        | Some rg =>
            match group_into (countries g) country "Unknown"%string pt with
            | None => None
            | Some co =>
                match group_into (cities g) city "Unknown"%string pt with
                | None => None
                | Some ci => Some (mkGroups rg co ci)
                end
            end
        end
    | _, _ => Some g
    end.

Fixpoint group_posts (g : Groups) (posts : list Post) : option Groups :=
  match posts with
  | [] => Some g
  | p :: ps =>
      match group_post g p with
      | None => None
      | Some g' => group_posts g' ps
      end
  end.

Definition no_groups : Groups := mkGroups [] [] [].

(** ** [prefetchTilesForCoffeePosts]

    The three [Object.entries(...).forEach] loops call [prefetchBoundsAtZoom]
    once per (group, zoom level), in this order; [batches] lists those calls
    and [startBatches] makes them, numbering the batches 0, 1, 2, ... *)

Definition groupBatches (ratio : R) (z1 z2 : nat) (minCount : nat) (o : Obj)
    : list (LatLngBounds * nat) :=
  flat_map
    (fun e =>
       match snd e with
       | [] => []
       | c :: cs =>
           if Nat.ltb minCount (List.length (c :: cs)) then
             let bounds := latLngBounds c cs in
             [(pad bounds ratio, z1); (pad bounds ratio, z2)]
           else []
       end)
    (entries o).

Definition batches (g : Groups) : list (LatLngBounds * nat) :=
  groupBatches (15 / 100) 4 6 0 (regions g)      (* coords.length > 0 *)
  ++ groupBatches (2 / 10) 8 10 0 (countries g)  (* coords.length > 0 *)
  ++ groupBatches (3 / 10) 12 14 1 (cities g).   (* coords.length > 1 *)

(** How a synchronous run ends: it returns, it throws, or it never stops
    (a tile enumeration that does not end); the state is what was issued. *)
Inductive Outcome : Type :=
| Returned (st : Runtime)
| Threw (st : Runtime)
| Hung (st : Runtime).

Fixpoint startBatches (ok : Tile -> bool) (mainTileLayer : bool) (fuel : nat) (n : nat)
    (bs : list (LatLngBounds * nat)) (st : Runtime) : Outcome :=
  match bs with
  | [] => Returned st
  | (b, z) :: bs' =>
      match prefetchBoundsAtZoom ok mainTileLayer fuel n b z st with
      | None => Hung st
      | Some st' => startBatches ok mainTileLayer fuel (S n) bs' st'
      end
  end.

Definition prefetchTilesForCoffeePosts (ok : Tile -> bool) (mainTileLayer : bool)
    (fuel : nat) (coffeePosts : list Post) (st : Runtime) : Outcome :=
  if negb mainTileLayer then Returned st
  else
    match group_posts no_groups coffeePosts with
    | None => Threw st
    | Some g => startBatches ok mainTileLayer fuel 0 (batches g) st
    end.

(** The whole pass: the call at time [t0], then [steps] timer callbacks of
    the event loop (a run that never stops lets no timer fire). *)
Definition prefetchPass (ok : Tile -> bool) (fuel steps : nat) (coffeePosts : list Post)
    (t0 : Z) : Outcome :=
  match prefetchTilesForCoffeePosts ok true fuel coffeePosts (mkRuntime t0 [] []) with
  | Returned st => Returned (run_timers ok steps st)
  | Threw st => Threw (run_timers ok steps st)
  | Hung st => Hung st
  end.

Definition outcome_state (o : Outcome) : Runtime :=
  match o with Returned st | Threw st | Hung st => st end.

(** ** Markers of the index-page map

    [coffeePostsData.forEach(post => { if (post.latitude && post.longitude)
    markers.push(L.marker([post.latitude, post.longitude], ...)) })];
    a marker is modelled by its position. *)
Fixpoint markers_of (posts : list Post) : list LatLng :=
  match posts with
  | [] => []
  | post :: ps =>
      if (truthy_num (latitude post) && truthy_num (longitude post))%bool then
        match latitude post, longitude post with
        | Some la, Some lo => mkLatLng la lo :: markers_of ps
        | _, _ => markers_of ps
        end
      else markers_of ps
  end.

(** ** The post store and the importer *)

Module PostStore.

(** A record of an external export (e.g. an Instagram export), as the
    importer reads it; absent fields are [None]. *)
Record SourceRecord : Type := mkSource {
  src_title : option string;
  src_date : option string;
  src_caption : option string;
  src_city : option string;
  src_country : option string;
  src_continent : option string
}.

(** Modelled from the spec: the normalisation of the Importer (the import
    script is not among the sources), which defaults a missing city,
    country or continent to the sentinel "Unknown". *)
Definition normalize (r : SourceRecord) : SourceRecord :=
  let dflt (v : option string) := match v with None => Some "Unknown"%string | s => s end in
  mkSource (src_title r) (src_date r) (src_caption r)
           (dflt (src_city r)) (dflt (src_country r)) (dflt (src_continent r)).

Record Row : Type := mkRow { row_id : nat; row_hash : string; row_data : SourceRecord }.

Record Store : Type := mkStore { rows : list Row; next_id : nat }.

Section Importer.

(** The dedup hash: a deterministic function of a normalised record. *)
Variable hash_of : SourceRecord -> string.

Fixpoint find_hash (h : string) (rs : list Row) : option Row :=
  match rs with
  | [] => None
  | r :: rs' => if String.eqb (row_hash r) h then Some r else find_hash h rs'
  end.

(** Modelled from the spec: [insert(record)] of the Post Store (the database
    module is not among the sources).  When the hash is already present the
    insert is a no-op that returns the existing id; otherwise a row with a
    fresh id is added.  The boolean tells whether a row was added. *)
Definition insert (s : Store) (r : SourceRecord) : nat * bool * Store :=
  let h := hash_of r in
  match find_hash h (rows s) with
  | Some row => (row_id row, false, s)
  | None => (next_id s, true, mkStore (rows s ++ [mkRow (next_id s) h r]) (S (next_id s)))
  end.

(** Modelled from the spec: the Importer, which normalises each source
    record, inserts it, and counts the inserted and the skipped records. *)
Fixpoint import (s : Store) (batch : list SourceRecord) (inserted skipped : nat)
    : Store * nat * nat :=
  match batch with
  | [] => (s, inserted, skipped)
  | r :: rs =>
      match insert s (normalize r) with
      | (_, true, s') => import s' rs (S inserted) skipped
      | (_, false, s') => import s' rs inserted (S skipped)
      end
  end.

End Importer.

End PostStore.

(** ** The tile URL as the specification describes it

    [https://{s}.basemaps.cartocdn.com/dark_all/{z}/{x}/{y}.png] with the
    subdomain [s] chosen from ['a','b','c','d'] by [(x + y) mod 4]. *)
Definition carto_url (s : string) (x y : Z) (z : nat) : string :=
  ("https://" ++ s ++ ".basemaps.cartocdn.com/dark_all/" ++ string_of_Z (Z.of_nat z)
   ++ "/" ++ string_of_Z x ++ "/" ++ string_of_Z y ++ ".png")%string.

Definition spec_tile_url (x y : Z) (z : nat) : string :=
  carto_url (nth (Z.to_nat ((x + y) mod 4)) subdomains EmptyString) x y z.

(** ** Observations of a prefetch run *)

(** The (index, time) of each request of batch [b], in issue order. *)
Definition req_info (b : nat) (e : event) : list (nat * Z) :=
  match e with
  | Request time b' i _ _ => if Nat.eqb b b' then [(i, time)] else []
  | Resolve _ _ => []
  end.

Definition requests_of (b : nat) (tr : list event) : list (nat * Z) :=
  flat_map (req_info b) tr.

(** The pending timers of batch [b]. *)
Definition timers_of (b : nat) (q : list Timer) : list Timer :=
  filter (fun tm => Nat.eqb (t_batch tm) b) q.

(** The batch of each request, in issue order. *)
Definition req_batches (tr : list event) : list nat :=
  flat_map (fun e => match e with Request _ b _ _ _ => [b] | Resolve _ _ => [] end) tr.

(** [batches] makes two consecutive batches per group: batch [b] belongs to
    group [b / 2]. *)
Definition group_of_batch (b : nat) : nat := Nat.div b 2.

(** The ordering the specification states: within a group, every request
    at the lower zoom level comes before any request at the higher one ... *)
Definition zoom_ascending_per_group (tr : list event) : Prop :=
  forall (i j : nat) (si sj : Z) (bi bj ki kj : nat) (ti tj : Tile) (ui uj : string),
    (i < j)%nat ->
    nth_error tr i = Some (Request si bi ki ti ui) ->
    nth_error tr j = Some (Request sj bj kj tj uj) ->
    group_of_batch bi = group_of_batch bj -> (tz ti <= tz tj)%nat.

(** ... and the groups come one after the other. *)
Definition groups_not_interleaved (tr : list event) : Prop :=
  forall (i j : nat) (si sj : Z) (bi bj ki kj : nat) (ti tj : Tile) (ui uj : string),
    (i < j)%nat ->
    nth_error tr i = Some (Request si bi ki ti ui) ->
    nth_error tr j = Some (Request sj bj kj tj uj) ->
    (group_of_batch bi <= group_of_batch bj)%nat.

(** A batch list made of pairs [(b, z1); (b, z2)]. *)
Fixpoint pairs_with (z1 z2 : nat) (bs : list (LatLngBounds * nat)) : Prop :=
  match bs with
  | [] => True
  | (b1, y1) :: (b2, y2) :: rest => b1 = b2 /\ y1 = z1 /\ y2 = z2 /\ pairs_with z1 z2 rest
  | _ => False
  end.

(** The invariant of a prefetch run started at time [t0], for batch [b]:
    its requests so far are those of indices 0 .. n-1, in this order, the
    k-th one issued at [t0 + 50 k]; n is at most [maxTiles]; and at most one
    timer of the batch is pending, the one for index n, due at [t0 + 50 n]. *)
Definition batch_ok (t0 : Z) (st : Runtime) (b : nat) : Prop :=
  exists n : nat,
    map fst (requests_of b (trace st)) = seq 0 n /\
    (forall k t, In (k, t) (requests_of b (trace st)) -> t = (t0 + 50 * Z.of_nat k)%Z) /\
    (n <= maxTiles)%nat /\
    (timers_of b (timers st) = [] \/
     exists tm, timers_of b (timers st) = [tm] /\ t_index tm = n /\
                due tm = (t0 + 50 * Z.of_nat n)%Z /\ (List.length (t_tiles tm) <= maxTiles)%nat).

(** No group has the key of the placeholder "Unknown". *)
Definition no_unknown_keys (g : Groups) : Prop :=
  ~ In "unknown"%string (map fst (regions g)) /\
  ~ In "Unknown"%string (map fst (countries g)) /\
  ~ In "Unknown"%string (map fst (cities g)).

(** ** Further observations *)

(** The integers [a, a+1, ..., b]. *)
Definition zrange (a b : Z) : list Z :=
  map (fun i => (a + Z.of_nat i)%Z) (seq 0 (Z.to_nat (b - a + 1))).

(** [LatLngBounds.contains(p)]. *)
Definition inside (bd : LatLngBounds) (p : LatLng) : Prop :=
  (lat (southWest bd) <= lat p <= lat (northEast bd))%R /\
  (lng (southWest bd) <= lng p <= lng (northEast bd))%R.

(** [tilesToFetch] of batch [b] of the groups [g]: the first [maxTiles]
    tiles of its enumeration ([] when there is no such batch or its
    enumeration does not stop within [fuel] rounds). *)
Definition batch_tiles (fuel : nat) (g : Groups) (b : nat) : list Tile :=
  match nth_error (batches g) b with
  | Some (bd, z) =>
      match enumerateTiles fuel (getTileBounds bd z) z with
      | Some ts => firstn maxTiles ts
      | None => []
      end
  | None => []
  end.

(** The point [[post.latitude, post.longitude]] of a post that passes the
    test [post.latitude && post.longitude]. *)
Definition post_point (p : Post) : option LatLng :=
  if (truthy_num (latitude p) && truthy_num (longitude p))%bool then
    match latitude p, longitude p with
    | Some la, Some lo => Some (mkLatLng la lo)
    | _, _ => None
    end
  else None.

(** The group key of a post's continent: [continent?.toLowerCase().replace(/\s/g, '-')]. *)
Definition continent_key (p : Post) : option string :=
  option_map (fun s => replaceSpaces (toLowerCase s)) (continent p).

(** The points, in post order, of the posts whose key is [k], when [k] is
    neither empty nor the placeholder [skip]. *)
Fixpoint members (key : Post -> option string) (skip k : string) (posts : list Post)
    : list LatLng :=
  match posts with
  | [] => []
  | p :: ps =>
      match post_point p, key p with
      | Some pt, Some s =>
          if (String.eqb s k && negb (String.eqb s EmptyString) && negb (String.eqb s skip))%bool
          then pt :: members key skip k ps
          else members key skip k ps
      | _, _ => members key skip k ps
      end
  end.

(** An array property extended by more points ([None]: no such property). *)
Definition opt_app (o : option (list LatLng)) (l : list LatLng) : option (list LatLng) :=
  match o, l with
  | None, [] => None
  | None, _ => Some l
  | Some v, _ => Some (v ++ l)
  end.

(** The per-tile invariant of a prefetch run: every request of batch [b]
    is the tile of [L b] at its index, fetched from the URL built from it,
    and every pending timer carries its batch's [tilesToFetch]. *)
Definition tiles_ok (L : nat -> list Tile) (st : Runtime) : Prop :=
  (forall s b k t u, In (Request s b k t u) (trace st) ->
     nth_error (L b) k = Some t /\ u = tileUrl (tx t) (ty t) (tz t)) /\
  (forall tm, In tm (timers st) -> t_tiles tm = L (t_batch tm)).

(** The work left to the pending timers: each fires once per remaining
    tile and once more to resolve. *)
Definition pending_work (q : list Timer) : nat :=
  fold_right (fun tm acc => S (List.length (t_tiles tm) - t_index tm) + acc)%nat 0%nat q.

(** No own property of the object is named after an [Object.prototype]
    property. *)
Definition no_proto (o : Obj) : Prop := forall s, In s proto_keys -> obj_get s o = None.

(** Every group of the object holds at least one point. *)
Definition nonempty_groups (o : Obj) : Prop := forall k v, In (k, v) o -> v <> [].

(** The tile [t] at index [k] of batch [b] was requested, from the URL
    built from it. *)
Definition requested (st : Runtime) (b k : nat) (t : Tile) : Prop :=
  exists s, In (Request s b k t (tileUrl (tx t) (ty t) (tz t))) (trace st).

(** Batch [b] resolved its promise. *)
Definition resolved (st : Runtime) (b : nat) : Prop :=
  exists s, In (Resolve s b) (trace st).

(** The progress of the batches below [nb]: each pending timer carries its
    batch's tiles, and every such batch either has a pending timer with all
    tiles before its index requested, or has requested all its tiles and
    resolved. *)
Definition progress_ok (L : nat -> list Tile) (nb : nat) (st : Runtime) : Prop :=
  (forall tm, In tm (timers st) -> t_tiles tm = L (t_batch tm)) /\
  (forall b, (b < nb)%nat ->
     (exists tm, In tm (timers st) /\ t_batch tm = b /\
        forall k t, (k < t_index tm)%nat -> nth_error (L b) k = Some t -> requested st b k t) \/
     ((forall k t, nth_error (L b) k = Some t -> requested st b k t) /\ resolved st b)).

(** ** The index page

    [if (document.getElementById('map'))]: the markers of the posts with
    truthy coordinates; when there is at least one, the map is fitted to
    [group.getBounds().pad(0.1)] and the prefetch pass is scheduled
    [2000] ms later. *)
Record IndexPage : Type := mkIndexPage {
  shown_markers : list LatLng;
  fitted : option LatLngBounds;
  prefetch_delay : option Z
}.

Definition indexPage (hasMap : bool) (coffeePostsData : option (list Post)) : IndexPage :=
  if negb hasMap then mkIndexPage [] None None
  else
    match coffeePostsData with
    | None => mkIndexPage [] None None
    | Some posts =>
        match markers_of posts with
        | [] => mkIndexPage [] None None
        | m :: ms => mkIndexPage (m :: ms) (Some (pad (latLngBounds m ms) (1 / 10))) (Some 2000%Z)
        end
    end.

(** ** Lazy loading of images

    [document.querySelectorAll('img.lazy')] and the [IntersectionObserver]
    callback.  The images of the page are a list in document order, an
    image being known by its position; an entry names its target image. *)
Record Img : Type := mkImg {
  src : string;
  data_src : option string;
  class_list : list string;
  observed : bool
}.

Record Entry : Type := mkEntry { target : nat; isIntersecting : bool }.

(** [img.src = img.dataset.src; img.classList.remove('lazy');
    observer.unobserve(img);]  An absent [data-src] is assigned as the
    string "undefined". *)
Definition load_image (img : Img) : Img :=
  mkImg (match data_src img with Some s => s | None => "undefined"%string end)
        (data_src img)
        (filter (fun c => negb (String.eqb c "lazy"%string)) (class_list img))
        false.

(** The change of the image at position [i]; an entry's target is always an
    image of the page. *)
Fixpoint update_img (imgs : list Img) (i : nat) (f : Img -> Img) : list Img :=
  match imgs, i with
  | [], _ => []
  | img :: rest, O => f img :: rest
  | img :: rest, S j => img :: update_img rest j f
  end.

(** [entries.forEach(entry => { if (entry.isIntersecting) { ... } })] *)
Definition imageObserverCallback (entries : list Entry) (imgs : list Img) : list Img :=
  fold_left (fun d e => if isIntersecting e then update_img d (target e) load_image else d)
            entries imgs.

(** * Proofs *)

(** ** Signs of reals and the arithmetic of finite numbers *)

Lemma R_sign_gt (r : R) : (0 < r)%R -> R_sign r = Gt.
Proof.
  intros H; unfold R_sign.
  destruct (total_order_T r 0) as [[H1|H1]|H1]; auto; lra.
Qed.

Lemma R_sign_lt (r : R) : (r < 0)%R -> R_sign r = Lt.
Proof.
  intros H; unfold R_sign.
  destruct (total_order_T r 0) as [[H1|H1]|H1]; auto; lra.
Qed.

Lemma R_sign_eq (r : R) : r = 0%R -> R_sign r = Eq.
Proof.
  intros H; unfold R_sign.
  destruct (total_order_T r 0) as [[H1|H1]|H1]; auto; lra.
Qed.

Lemma js_div_fin (x y : R) : y <> 0%R -> js_div (Fin x) (Fin y) = Fin (x / y).
Proof.
  intros H; unfold js_div.
  destruct (Rlt_or_le y 0) as [Hy|Hy].
  - now rewrite (R_sign_lt y Hy).
  - rewrite (R_sign_gt y); [reflexivity | lra].
Qed.

Lemma PI_pos : (0 < PI)%R.
Proof. exact PI_RGT_0. Qed.

(** ** The slippy-map terms on finite inputs *)

Lemma tileX_fin (p : LatLng) (zoom : nat) :
  tileX p zoom = JInt (slippy_x (lng p) zoom).
Proof.
  unfold tileX, slippy_x, Math_pow2; cbn [js_add js_mul].
  rewrite js_div_fin by lra. reflexivity.
Qed.

(** Within (-90, 90) the argument of the logarithm is positive. *)
Lemma secant_sum_pos (la : R) :
  (-90 < la < 90)%R ->
  (0 < cos (la * PI / 180))%R /\
  (0 < tan (la * PI / 180) + 1 / cos (la * PI / 180))%R.
Proof.
  intros [H1 H2]. pose proof PI_pos as HP.
  set (a := (la * PI / 180)%R).
  assert (Ha1 : (- (PI / 2) < a)%R).
  { unfold a. nra. }
  assert (Ha2 : (a < PI / 2)%R).
  { unfold a. nra. }
  assert (Hc : (0 < cos a)%R) by (apply cos_gt_0; lra).
  assert (Hs : (-1 < sin a)%R).
  { assert (E : sin (- (PI / 2)) = (-1)%R) by (rewrite sin_neg, sin_PI2; ring).
    rewrite <- E. apply sin_increasing_1; lra. }
  split; [exact Hc|].
  unfold tan.
  replace (sin a / cos a + 1 / cos a)%R with ((sin a + 1) * / cos a)%R by (field; lra).
  apply Rmult_lt_0_compat; [lra | apply Rinv_0_lt_compat; lra].
Qed.

Lemma tileY_fin (p : LatLng) (zoom : nat) :
  (-90 < lat p < 90)%R -> tileY p zoom = JInt (slippy_y (lat p) zoom).
Proof.
  intros H. destruct (secant_sum_pos (lat p) H) as [Hc Hs].
  pose proof PI_pos as HP.
  unfold tileY, slippy_y, Math_pow2, Math_PI; cbn [js_mul Math_tan Math_cos].
  rewrite js_div_fin by lra. cbn [Math_tan Math_cos].
  rewrite js_div_fin by lra. cbn [js_add Math_log].
  rewrite (R_sign_gt _ Hs).
  rewrite js_div_fin by lra. cbn [js_sub js_neg js_add].
  rewrite js_div_fin by lra. cbn [js_mul Math_floor].
  reflexivity.
Qed.

Lemma Math_min_int (a b : Z) : Math_min (JInt a) (JInt b) = JInt (Z.min a b).
Proof.
  unfold Math_min, int_le. destruct (Z.leb_spec a b); f_equal; lia.
Qed.

Lemma Math_max_int (a b : Z) : Math_max (JInt a) (JInt b) = JInt (Z.max a b).
Proof.
  unfold Math_max, int_le. destruct (Z.leb_spec a b); f_equal; lia.
Qed.


(** ** The tile enumeration loops *)

Lemma loop_y_range (x : int_num) (zoom : nat) (n : nat) :
  forall (fuel : nat) (c d : Z),
    Z.of_nat n = (d - c + 1)%Z -> (n < fuel)%nat ->
    exists ts, loop_y fuel x (JInt c) (JInt d) zoom = Some ts /\ List.length ts = n.
Proof.
  induction n as [|n IH]; intros fuel c d Hn Hf;
    (destruct fuel as [|f]; [lia|]); cbn [loop_y int_le int_incr].
  - destruct (Z.leb_spec c d); [lia|]. exists []; split; reflexivity.
  - destruct (Z.leb_spec c d); [|lia].
    destruct (IH f (c + 1)%Z d) as [ts [Hts Hl]]; [lia | lia |].
    rewrite Hts. exists (mkTile x (JInt c) zoom :: ts). split; [reflexivity|].
    simpl. lia.
Qed.

Lemma loop_x_range (lo_y hi_y : int_num) (zoom : nat) (n : nat)
    (Hy : forall fuel x, (n < fuel)%nat ->
          exists ts, loop_y fuel x lo_y hi_y zoom = Some ts /\ List.length ts = n)
    (m : nat) :
  forall (fuel : nat) (a b : Z),
    Z.of_nat m = (b - a + 1)%Z -> (m + n < fuel)%nat ->
    exists ts, loop_x fuel (JInt a) (JInt b) lo_y hi_y zoom = Some ts
               /\ List.length ts = (m * n)%nat.
Proof.
  induction m as [|m IH]; intros fuel a b Hm Hf;
    (destruct fuel as [|f]; [lia|]); cbn [loop_x int_le int_incr].
  - destruct (Z.leb_spec a b); [lia|]. exists []; split; reflexivity.
  - destruct (Z.leb_spec a b); [|lia].
    destruct (Hy (S f) (JInt a)) as [r [Hr Hlr]]; [lia|].
    destruct (IH f (a + 1)%Z b) as [rs [Hrs Hlrs]]; [lia | lia |].
    rewrite Hr, Hrs. exists (r ++ rs). split; [reflexivity|].
    rewrite length_app. lia.
Qed.


(** ** C1: [getTileBounds] computes the slippy-map tile indices *)


(** ** C10: the bounds returned by [getTileBounds] *)



(** ** C8: the tile URL *)

Lemma tileUrl_int (x y : Z) (z : nat) :
  tileUrl (JInt x) (JInt y) z = carto_url (subdomain_at (JInt (Z.rem (x + y) 4))) x y z.
Proof. reflexivity. Qed.

Lemma prefetchTile_trace (ok : Tile -> bool) (batch index : nat) (t : Tile) (st : Runtime) :
  prefetchTile ok batch index t st =
  mkRuntime (clock st) (timers st)
            (trace st ++ [Request (clock st) batch index t (tileUrl (tx t) (ty t) (tz t))]).
Proof. unfold prefetchTile, onload, onerror. destruct (ok t); reflexivity. Qed.

(** C8 (code bug): [prefetchTile(-1, 0, 4)], a tile of the zoom-4 batches
    whose x index a bounds padded west of longitude -180 produces, is
    requested from "https://undefined.basemaps.cartocdn.com/dark_all/4/-1/0.png":
    JavaScript's [%] gives [(-1 + 0) % 4 = -1] and [subdomains[-1]] is
    undefined, where the round-robin by [(x + y) mod 4] picks 'd'. *)
Theorem prefetchTile_url_bug (ok : Tile -> bool) (batch index : nat) (st : Runtime) :
  trace (prefetchTile ok batch index (mkTile (JInt (-1)) (JInt 0) 4) st) =
    trace st ++ [Request (clock st) batch index (mkTile (JInt (-1)) (JInt 0) 4)
                   "https://undefined.basemaps.cartocdn.com/dark_all/4/-1/0.png"%string] /\
  spec_tile_url (-1) 0 4 = "https://d.basemaps.cartocdn.com/dark_all/4/-1/0.png"%string.
Proof. rewrite prefetchTile_trace. split; reflexivity. Qed.

(** The round-robin URL fails at the tile (x, y, z) = (-1, 0, 0), whose x index a
    bounds padded west of longitude -180 produces, is requested from
    "https://undefined.basemaps.cartocdn.com/dark_all/0/-1/0.png": JavaScript's
    [%] gives -1, and [subdomains[-1]] is undefined; [(x + y) mod 4] would
    pick 'd'. *)
Lemma prefetchTile_url_counterexample :
  ~ (forall (ok : Tile -> bool) (batch index : nat) (x y : Z) (z : nat) (st : Runtime),
       trace (prefetchTile ok batch index (mkTile (JInt x) (JInt y) z) st) =
       trace st ++ [Request (clock st) batch index (mkTile (JInt x) (JInt y) z) (spec_tile_url x y z)]).
Proof.
  intros H.
  specialize (H (fun _ => true) 0%nat 0%nat (-1)%Z 0%Z 0%nat (mkRuntime 0 [] [])).
  rewrite prefetchTile_trace in H. cbn [trace clock app tx ty tz] in H.
  injection H as Hu. vm_compute in Hu. discriminate Hu.
Qed.

(** For every tile with integer indices x and y, [prefetchTile]
    requests exactly [https://{s}.basemaps.cartocdn.com/dark_all/{z}/{x}/{y}.png]
    and nothing else.  When x + y >= 0, s is ['a','b','c','d'][(x + y) mod 4];
    when x + y < 0, the index is JavaScript's non-positive remainder, and s
    is 'a' if x + y is a multiple of 4 and the string "undefined" otherwise. *)
Theorem prefetchTile_url (ok : Tile -> bool) (batch index : nat) (x y : Z) (z : nat)
    (st : Runtime) :
  let t := mkTile (JInt x) (JInt y) z in
  timers (prefetchTile ok batch index t st) = timers st /\
  ((0 <= x + y)%Z ->
   trace (prefetchTile ok batch index t st) =
   trace st ++ [Request (clock st) batch index t (spec_tile_url x y z)]) /\
  ((x + y < 0)%Z ->
   trace (prefetchTile ok batch index t st) =
   trace st ++ [Request (clock st) batch index t
                  (carto_url (if Z.eqb (Z.rem (x + y) 4) 0 then "a"%string else "undefined"%string)
                             x y z)]).
Proof.
  cbv zeta. rewrite prefetchTile_trace. cbn [timers trace clock tx ty tz].
  rewrite tileUrl_int. split; [reflexivity|]. split.
  - intros H. unfold spec_tile_url.
    rewrite Z.rem_mod_nonneg by lia.
    assert (Hb : (0 <= (x + y) mod 4 < 4)%Z) by (apply Z.mod_pos_bound; lia).
    destruct (Z.eq_dec ((x + y) mod 4) 0) as [E|N0]; [rewrite E; reflexivity|].
    destruct (Z.eq_dec ((x + y) mod 4) 1) as [E|N1]; [rewrite E; reflexivity|].
    destruct (Z.eq_dec ((x + y) mod 4) 2) as [E|N2]; [rewrite E; reflexivity|].
    assert (E : ((x + y) mod 4 = 3)%Z) by lia. rewrite E; reflexivity.
  - intros H.
    assert (Hr1 : (Z.rem (x + y) 4 <= 0)%Z) by (apply Z.rem_nonpos; lia).
    destruct (Z.eqb_spec (Z.rem (x + y) 4) 0) as [E|NE].
    + rewrite E. reflexivity.
    + unfold subdomain_at. destruct (Z.leb_spec 0 (Z.rem (x + y) 4)); [lia|]. reflexivity.
Qed.

(** ** C2: the importer is idempotent *)

Section ImportProofs.

Variable hash_of : PostStore.SourceRecord -> string.

Lemma find_hash_app (h : string) (rs extra : list PostStore.Row) :
  PostStore.find_hash h rs <> None -> PostStore.find_hash h (rs ++ extra) <> None.
Proof.
  induction rs as [|r rs IH]; cbn; [congruence|].
  destruct (String.eqb (PostStore.row_hash r) h); auto.
Qed.

Lemma find_hash_last (h : string) (rs : list PostStore.Row) (r : PostStore.Row) :
  PostStore.row_hash r = h -> PostStore.find_hash h (rs ++ [r]) <> None.
Proof.
  intros E. induction rs as [|r' rs IH]; cbn.
  - rewrite E, String.eqb_refl. congruence.
  - destruct (String.eqb (PostStore.row_hash r') h); [congruence | exact IH].
Qed.

Lemma insert_keeps (s : PostStore.Store) (r : PostStore.SourceRecord) :
  let s' := snd (PostStore.insert hash_of s r) in
  PostStore.find_hash (hash_of r) (PostStore.rows s') <> None /\
  (forall h, PostStore.find_hash h (PostStore.rows s) <> None ->
             PostStore.find_hash h (PostStore.rows s') <> None).
Proof.
  cbv zeta. unfold PostStore.insert.
  destruct (PostStore.find_hash (hash_of r) (PostStore.rows s)) as [row|] eqn:E; cbn.
  - split; [congruence | auto].
  - split.
    + apply find_hash_last. reflexivity.
    + intros h Hh. apply find_hash_app. exact Hh.
Qed.

Lemma import_keeps (batch : list PostStore.SourceRecord) :
  forall s i k,
    let s' := fst (fst (PostStore.import hash_of s batch i k)) in
    (forall h, PostStore.find_hash h (PostStore.rows s) <> None ->
               PostStore.find_hash h (PostStore.rows s') <> None) /\
    (forall r, In r batch ->
               PostStore.find_hash (hash_of (PostStore.normalize r)) (PostStore.rows s') <> None).
Proof.
  induction batch as [|r rs IH]; intros s i k; cbv zeta; cbn [PostStore.import].
  - split; [auto | intros r []].
  - destruct (insert_keeps s (PostStore.normalize r)) as [Hnew Hold].
    destruct (PostStore.insert hash_of s (PostStore.normalize r)) as [[id [|]] s1];
      cbn [snd] in Hnew, Hold.
    + destruct (IH s1 (S i) k) as [H1 H2]. split.
      * intros h Hh. apply H1, Hold, Hh.
      * intros r' [<-|Hin]; [apply H1, Hnew | apply H2, Hin].
    + destruct (IH s1 i (S k)) as [H1 H2]. split.
      * intros h Hh. apply H1, Hold, Hh.
      * intros r' [<-|Hin]; [apply H1, Hnew | apply H2, Hin].
Qed.

Lemma import_noop (batch : list PostStore.SourceRecord) :
  forall s i k,
    (forall r, In r batch ->
               PostStore.find_hash (hash_of (PostStore.normalize r)) (PostStore.rows s) <> None) ->
    PostStore.import hash_of s batch i k = (s, i, (k + List.length batch)%nat).
Proof.
  induction batch as [|r rs IH]; intros s i k Hin; cbn [PostStore.import].
  - cbn [List.length]. f_equal. lia.
  - unfold PostStore.insert at 1.
    destruct (PostStore.find_hash (hash_of (PostStore.normalize r)) (PostStore.rows s)) as [row|] eqn:E.
    + rewrite IH by (intros r' H; apply Hin; right; exact H).
      cbn [List.length]. f_equal. lia.
    + exfalso. apply (Hin r); [left; reflexivity | exact E].
Qed.

End ImportProofs.

(** C2: an insert whose dedup hash is already in the store returns the
    existing row's id and leaves the store unchanged; and for every store
    and every source batch, re-running the import of the batch on the store
    the first run produced adds no record (every record is counted as a
    skipped duplicate) and leaves the store unchanged. *)
Theorem import_idempotent (hash_of : PostStore.SourceRecord -> string)
    (s : PostStore.Store) (batch : list PostStore.SourceRecord) :
  (forall (r : PostStore.SourceRecord) (row : PostStore.Row),
     PostStore.find_hash (hash_of r) (PostStore.rows s) = Some row ->
     PostStore.insert hash_of s r = (PostStore.row_id row, false, s)) /\
  (let s1 := fst (fst (PostStore.import hash_of s batch 0 0)) in
   PostStore.import hash_of s1 batch 0 0 = (s1, 0%nat, List.length batch)).
Proof.
  split.
  - intros r row E. unfold PostStore.insert. rewrite E. reflexivity.
  - cbv zeta. destruct (import_keeps hash_of batch s 0 0) as [_ H2].
    apply import_noop. exact H2.
Qed.

(** ** C9: coordinates are filtered by truthiness *)

Lemma truthy_num_zero : truthy_num (Some 0%R) = false.
Proof. cbn. rewrite R_sign_eq; reflexivity. Qed.

Lemma falsy_coords (p : Post) :
  (latitude p = None \/ latitude p = Some 0%R \/ longitude p = None \/ longitude p = Some 0%R) ->
  (truthy_num (latitude p) && truthy_num (longitude p))%bool = false.
Proof.
  intros [E|[E|[E|E]]]; rewrite E;
    [ reflexivity | rewrite truthy_num_zero; reflexivity
    | apply andb_false_r | rewrite truthy_num_zero; apply andb_false_r ].
Qed.

Lemma group_posts_skip (p : Post) (ps1 ps2 : list Post) :
  (truthy_num (latitude p) && truthy_num (longitude p))%bool = false ->
  forall g, group_posts g (ps1 ++ p :: ps2) = group_posts g (ps1 ++ ps2).
Proof.
  intros Hp. induction ps1 as [|q ps1 IH]; intros g; cbn [app group_posts].
  - unfold group_post at 1. rewrite Hp. reflexivity.
  - destruct (group_post g q); [apply IH | reflexivity].
Qed.

Lemma markers_skip (p : Post) (ps1 ps2 : list Post) :
  (truthy_num (latitude p) && truthy_num (longitude p))%bool = false ->
  markers_of (ps1 ++ p :: ps2) = markers_of (ps1 ++ ps2).
Proof.
  intros Hp. induction ps1 as [|q ps1 IH]; cbn [app markers_of].
  - rewrite Hp. reflexivity.
  - destruct (truthy_num (latitude q) && truthy_num (longitude q))%bool;
      [destruct (latitude q), (longitude q); rewrite ?IH; reflexivity | exact IH].
Qed.

(** C9: a post whose latitude or longitude is 0, null or undefined gets no
    marker and takes no part in the tile prefetching: removing it from the
    posts changes neither the markers, nor the groups, nor the whole
    prefetch pass. *)
Theorem falsy_coordinates_excluded (p : Post) (ps1 ps2 : list Post) :
  (latitude p = None \/ latitude p = Some 0%R \/ longitude p = None \/ longitude p = Some 0%R) ->
  markers_of (ps1 ++ p :: ps2) = markers_of (ps1 ++ ps2) /\
  group_posts no_groups (ps1 ++ p :: ps2) = group_posts no_groups (ps1 ++ ps2) /\
  (forall (ok : Tile -> bool) (fuel steps : nat) (t0 : Z),
     prefetchPass ok fuel steps (ps1 ++ p :: ps2) t0 = prefetchPass ok fuel steps (ps1 ++ ps2) t0).
Proof.
  intros H. pose proof (falsy_coords p H) as Hp.
  split; [apply markers_skip, Hp|].
  split; [apply group_posts_skip, Hp|].
  intros ok fuel steps t0. unfold prefetchPass, prefetchTilesForCoffeePosts.
  cbn [negb]. rewrite group_posts_skip by exact Hp. reflexivity.
Qed.

(** ** C7: the groups of [prefetchTilesForCoffeePosts] *)

Lemma obj_push_keys (k : string) (p : LatLng) (o : Obj) :
  map fst (obj_push k p o) = map fst o.
Proof.
  induction o as [|[k' v] o IH]; cbn; [reflexivity|].
  destruct (String.eqb k k'); cbn; [reflexivity | now rewrite IH].
Qed.

Lemma group_into_keys (o o' : Obj) (k : option string) (skip : string) (pt : LatLng) :
  group_into o k skip pt = Some o' -> ~ In skip (map fst o) -> ~ In skip (map fst o').
Proof.
  unfold group_into. intros E Hn.
  destruct k as [s|]; [|injection E as <-; exact Hn].
  destruct (truthy_str (Some s) && negb (String.eqb s skip))%bool eqn:C;
    [|injection E as <-; exact Hn].
  apply andb_prop in C as [_ C]. apply negb_true_iff, String.eqb_neq in C.
  unfold group_push in E. destruct (obj_get s o).
  - injection E as <-. rewrite obj_push_keys. exact Hn.
  - destruct (existsb (String.eqb s) proto_keys); [discriminate|].
    injection E as <-. rewrite map_app, in_app_iff. cbn. intuition.
Qed.

Lemma group_post_keys (g g' : Groups) (p : Post) :
  no_unknown_keys g -> group_post g p = Some g' -> no_unknown_keys g'.
Proof.
  intros [H1 [H2 H3]] E. unfold group_post in E.
  destruct (negb (truthy_num (latitude p) && truthy_num (longitude p))).
  { injection E as <-. repeat split; assumption. }
  destruct (latitude p), (longitude p); try (injection E as <-; repeat split; assumption).
  cbv zeta in E.
  destruct (group_into (regions g) _ _ _) as [rg|] eqn:Er; [|discriminate].
  destruct (group_into (countries g) _ _ _) as [co|] eqn:Ec; [|discriminate].
  destruct (group_into (cities g) _ _ _) as [ci|] eqn:Ei; [|discriminate].
  injection E as <-. unfold no_unknown_keys; cbn [regions countries cities].
  split; [exact (group_into_keys _ _ _ _ _ Er H1)|].
  split; [exact (group_into_keys _ _ _ _ _ Ec H2)|].
  exact (group_into_keys _ _ _ _ _ Ei H3).
Qed.

Lemma group_posts_keys (posts : list Post) :
  forall g g', no_unknown_keys g -> group_posts g posts = Some g' -> no_unknown_keys g'.
Proof.
  induction posts as [|p ps IH]; intros g g' Hg E; cbn [group_posts] in E.
  - injection E as <-. exact Hg.
  - destruct (group_post g p) as [g1|] eqn:E1; [|discriminate].
    apply (IH g1); [apply (group_post_keys g g1 p Hg E1) | exact E].
Qed.

Lemma in_insert_by_index (e x : string * list LatLng) (l : Obj) :
  In e (insert_by_index x l) -> e = x \/ In e l.
Proof.
  induction l as [|y l IH]; cbn; [intuition|].
  destruct (Z.leb (index_of_entry x) (index_of_entry y)); cbn; [intuition|].
  intros [<-|H]; [right; left; reflexivity|]. destruct (IH H); auto.
Qed.

Lemma in_entries (e : string * list LatLng) (o : Obj) : In e (entries o) -> In e o.
Proof.
  unfold entries. rewrite in_app_iff. intros [H|H].
  - assert (G : forall l, In e (fold_right insert_by_index [] l) -> In e l).
    { induction l as [|x l IH]; cbn; [auto|].
      intros Hx. destruct (in_insert_by_index e x _ Hx); auto. }
    apply G in H. apply filter_In in H. tauto.
  - apply filter_In in H. tauto.
Qed.

Lemma in_groupBatches (ratio : R) (z1 z2 minCount : nat) (o : Obj) (b : LatLngBounds) (z : nat) :
  In (b, z) (groupBatches ratio z1 z2 minCount o) ->
  (z = z1 \/ z = z2) /\
  exists k c cs, In (k, c :: cs) o /\ (minCount < List.length (c :: cs))%nat /\
                 b = pad (latLngBounds c cs) ratio.
Proof.
  unfold groupBatches. rewrite in_flat_map. intros [[k coords] [He Hb]].
  apply in_entries in He. cbn [snd] in Hb.
  destruct coords as [|c cs]; [destruct Hb|].
  destruct (Nat.ltb_spec minCount (List.length (c :: cs))) as [Hl|Hl]; [|destruct Hb].
  cbn in Hb. destruct Hb as [Hb|[Hb|[]]]; injection Hb as <- <-;
    (split; [auto | exists k, c, cs; auto]).
Qed.

(** C7: for every post list that groups without error, no continent group
    has the key "unknown" (the key the placeholder "Unknown" normalises to),
    no country group and no city group has the key "Unknown"; and every
    city-level batch (zoom 12 or 14) comes from a city group of at least two
    posts, padded by 0.3. *)
Theorem grouping_drops_unknown (posts : list Post) (g : Groups) :
  group_posts no_groups posts = Some g ->
  replaceSpaces (toLowerCase "Unknown") = "unknown"%string /\
  ~ In "unknown"%string (map fst (regions g)) /\
  ~ In "Unknown"%string (map fst (countries g)) /\
  ~ In "Unknown"%string (map fst (cities g)) /\
  (forall (b : LatLngBounds) (z : nat), In (b, z) (batches g) -> (z = 12 \/ z = 14)%nat ->
     exists k c1 c2 cs, In (k, c1 :: c2 :: cs) (cities g) /\
                        b = pad (latLngBounds c1 (c2 :: cs)) (3 / 10)).
Proof.
  intros E.
  assert (H0 : no_unknown_keys no_groups) by (unfold no_unknown_keys; cbn; tauto).
  destruct (group_posts_keys posts no_groups g H0 E) as [H1 [H2 H3]].
  split; [reflexivity|]. split; [exact H1|]. split; [exact H2|]. split; [exact H3|].
  intros b z Hin Hz. unfold batches in Hin. rewrite !in_app_iff in Hin.
  destruct Hin as [Hin|[Hin|Hin]];
    apply in_groupBatches in Hin as [Hzz [k [c [cs [Hk [Hl Hb]]]]]].
  - lia.
  - lia.
  - destruct cs as [|c2 cs]; [cbn in Hl; lia|].
    exists k, c, c2, cs. split; assumption.
Qed.

(** ** The event loop keeps every batch in order *)

Lemma requests_of_app (b : nat) (tr tr' : list event) :
  requests_of b (tr ++ tr') = requests_of b tr ++ requests_of b tr'.
Proof. unfold requests_of. apply flat_map_app. Qed.

Lemma timers_of_app (b : nat) (q q' : list Timer) :
  timers_of b (q ++ q') = timers_of b q ++ timers_of b q'.
Proof. unfold timers_of. apply filter_app. Qed.

Lemma pick_due_split (d : Z) (q : list Timer) (tm : Timer) (rest : list Timer) :
  pick_due d q = Some (tm, rest) -> exists l1 l2, q = l1 ++ tm :: l2 /\ rest = l1 ++ l2.
Proof.
  revert rest. induction q as [|x q IH]; intros rest; cbn; [discriminate|].
  destruct (Z.eqb (due x) d).
  - intros E; injection E as <- <-. exists [], q. split; reflexivity.
  - destruct (pick_due d q) as [[t r]|] eqn:E; [|discriminate].
    intros E'; injection E' as <- <-.
    destruct (IH r eq_refl) as [l1 [l2 [-> ->]]].
    exists (x :: l1), l2. split; reflexivity.
Qed.

Lemma pick_split (q : list Timer) (tm : Timer) (rest : list Timer) :
  pick q = Some (tm, rest) -> exists l1 l2, q = l1 ++ tm :: l2 /\ rest = l1 ++ l2.
Proof.
  unfold pick. destruct q as [|x q]; [discriminate|]. apply pick_due_split.
Qed.

Lemma prefetchNext_shape (ok : Tile -> bool) (b : nat) (tiles : list Tile) (i : nat)
    (st : Runtime) :
  prefetchNext ok b tiles i st =
  match nth_error tiles i with
  | None => mkRuntime (clock st) (timers st) (trace st ++ [Resolve (clock st) b])
  | Some t =>
      mkRuntime (clock st) (timers st ++ [mkTimer (clock st + 50) b tiles (S i)])
                (trace st ++ [Request (clock st) b i t (tileUrl (tx t) (ty t) (tz t))])
  end.
Proof.
  unfold prefetchNext. destruct (nth_error tiles i); [|reflexivity].
  unfold setTimeout. rewrite prefetchTile_trace. reflexivity.
Qed.

Lemma batch_ok_ext (t0 : Z) (st st' : Runtime) (b : nat) :
  requests_of b (trace st') = requests_of b (trace st) ->
  timers_of b (timers st') = timers_of b (timers st) ->
  batch_ok t0 st b -> batch_ok t0 st' b.
Proof. intros E1 E2. unfold batch_ok. rewrite E1, E2. exact (fun H => H). Qed.

Lemma requests_of_other (b b' : nat) (time : Z) (i : nat) (t : Tile) (u : string) :
  b' <> b -> requests_of b' [Request time b i t u] = [].
Proof.
  intros H. cbn. destruct (Nat.eqb_spec b' b); [contradiction | reflexivity].
Qed.

Lemma timers_of_other (b b' : nat) (tm : Timer) :
  t_batch tm = b -> b' <> b -> timers_of b' [tm] = [].
Proof.
  intros E H. cbn. rewrite E. destruct (Nat.eqb_spec b b'); [congruence | reflexivity].
Qed.

Lemma prefetchNext_ok (t0 : Z) (ok : Tile -> bool) (b : nat) (tiles : list Tile) (i : nat)
    (st : Runtime) :
  (forall b', b' <> b -> batch_ok t0 st b') ->
  map fst (requests_of b (trace st)) = seq 0 i ->
  (forall k t, In (k, t) (requests_of b (trace st)) -> t = (t0 + 50 * Z.of_nat k)%Z) ->
  (i <= maxTiles)%nat ->
  timers_of b (timers st) = [] ->
  clock st = (t0 + 50 * Z.of_nat i)%Z ->
  (List.length tiles <= maxTiles)%nat ->
  forall b', batch_ok t0 (prefetchNext ok b tiles i st) b'.
Proof.
  intros Hoth Hseq Htime Hi Htm Hclk Hlen b'.
  rewrite prefetchNext_shape.
  destruct (Nat.eq_dec b' b) as [E|Hne]; [subst b'|].
  - destruct (nth_error tiles i) as [t|] eqn:Hnth; cbn [trace timers].
    + assert (Hlt : (i < List.length tiles)%nat) by (apply nth_error_Some; congruence).
      exists (S i). cbn [trace timers]. rewrite requests_of_app, timers_of_app, Htm.
      cbn [requests_of flat_map req_info]. rewrite Nat.eqb_refl, app_nil_r.
      split; [rewrite map_app, Hseq, seq_S; reflexivity|].
      split.
      { intros k tt Hin. apply in_app_iff in Hin as [Hin|[Hin|[]]]; [apply Htime, Hin|].
        injection Hin as <- <-. rewrite Hclk. reflexivity. }
      split; [lia|].
      right. exists (mkTimer (clock st + 50) b tiles (S i)).
      cbn [timers_of filter t_batch t_index due t_tiles]. rewrite Nat.eqb_refl.
      split; [reflexivity|]. split; [reflexivity|]. split; [rewrite Hclk; lia|]. exact Hlen.
    + exists i. cbn [trace timers]. rewrite requests_of_app. cbn [requests_of flat_map req_info]. rewrite !app_nil_r.
      split; [exact Hseq|]. split; [exact Htime|]. split; [exact Hi|]. left; exact Htm.
  - destruct (Hoth b' Hne) as [n [H1 [H2 [H3 H4]]]].
    destruct (nth_error tiles i) as [t|]; exists n; cbn [trace timers].
    + rewrite requests_of_app, timers_of_app, (requests_of_other b b'), (timers_of_other b b'),
        !app_nil_r by (reflexivity || exact Hne).
      tauto.
    + rewrite requests_of_app. cbn [requests_of flat_map req_info]. rewrite !app_nil_r. tauto.
Qed.

Lemma prefetchNext_clock (ok : Tile -> bool) (b : nat) (tiles : list Tile) (i : nat) (st : Runtime) :
  clock (prefetchNext ok b tiles i st) = clock st.
Proof. rewrite prefetchNext_shape. destruct (nth_error tiles i); reflexivity. Qed.

Lemma fire_ok (t0 : Z) (ok : Tile -> bool) (st : Runtime) (tm : Timer) (rest : list Timer) :
  (forall b, batch_ok t0 st b) -> pick (timers st) = Some (tm, rest) ->
  forall b, batch_ok t0 (prefetchNext ok (t_batch tm) (t_tiles tm) (t_index tm)
                                      (mkRuntime (due tm) rest (trace st))) b.
Proof.
  intros Hinv Hp. destruct (pick_split _ _ _ Hp) as [l1 [l2 [Hq Hr]]].
  destruct (Hinv (t_batch tm)) as [n [H1 [H2 [H3 H4]]]].
  assert (Htb : timers_of (t_batch tm) (timers st) =
                timers_of (t_batch tm) l1 ++ tm :: timers_of (t_batch tm) l2).
  { rewrite Hq, timers_of_app. cbn [timers_of filter]. rewrite Nat.eqb_refl. reflexivity. }
  destruct H4 as [H4|[tm' [H4 [H5 [H6 H7]]]]].
  { rewrite H4 in Htb. destruct (timers_of (t_batch tm) l1); discriminate. }
  rewrite H4 in Htb.
  destruct (timers_of (t_batch tm) l1) as [|x l1'] eqn:E1.
  2:{ cbn in Htb. injection Htb as _ Htb. destruct l1'; discriminate. }
  cbn in Htb. injection Htb as Etm E2. subst tm'.
  apply prefetchNext_ok; cbn [trace timers clock].
  - intros b' Hne. apply (batch_ok_ext t0 st); [reflexivity| |apply Hinv].
    cbn [timers]. rewrite Hr, Hq, !timers_of_app. cbn [timers_of filter].
    destruct (Nat.eqb_spec (t_batch tm) b'); [congruence | reflexivity].
  - rewrite <- H5 in H1. exact H1.
  - exact H2.
  - rewrite H5. exact H3.
  - rewrite Hr, timers_of_app, E1, <- E2. reflexivity.
  - rewrite H6, H5. reflexivity.
  - exact H7.
Qed.

Lemma run_timers_ok (t0 : Z) (ok : Tile -> bool) (steps : nat) :
  forall st, (forall b, batch_ok t0 st b) -> forall b, batch_ok t0 (run_timers ok steps st) b.
Proof.
  induction steps as [|n IH]; intros st Hinv; cbn [run_timers]; [exact Hinv|].
  destruct (pick (timers st)) as [[tm rest]|] eqn:Hp; [|exact Hinv].
  apply IH. apply fire_ok; assumption.
Qed.

Lemma prefetchBoundsAtZoom_ok (t0 : Z) (ok : Tile -> bool) (layer : bool) (fuel n : nat)
    (bounds : LatLngBounds) (zoom : nat) (st st' : Runtime) :
  clock st = t0 -> (forall b, batch_ok t0 st b) ->
  (forall b, (n <= b)%nat -> requests_of b (trace st) = [] /\ timers_of b (timers st) = []) ->
  prefetchBoundsAtZoom ok layer fuel n bounds zoom st = Some st' ->
  clock st' = t0 /\ (forall b, batch_ok t0 st' b) /\
  (forall b, (S n <= b)%nat -> requests_of b (trace st') = [] /\ timers_of b (timers st') = []).
Proof.
  intros Hclk Hinv Hfr E. unfold prefetchBoundsAtZoom in E.
  destruct (negb layer).
  { injection E as <-. unfold emit; cbn [clock trace timers].
    split; [exact Hclk|]. split.
    - intros b. apply (batch_ok_ext t0 st); [| reflexivity | apply Hinv].
      cbn [trace]. rewrite requests_of_app. cbn. apply app_nil_r.
    - intros b Hb. rewrite requests_of_app. cbn. rewrite app_nil_r. apply Hfr. lia. }
  destruct (enumerateTiles fuel (getTileBounds bounds zoom) zoom) as [tiles|]; [|discriminate].
  assert (Est : st' = prefetchNext ok n (firstn maxTiles tiles) 0 st) by congruence.
  clear E. subst st'.
  destruct (Hfr n (le_n n)) as [Hr Ht].
  split; [rewrite prefetchNext_clock; exact Hclk|]. split.
  - apply prefetchNext_ok.
    + intros b' _. apply Hinv.
    + rewrite Hr. reflexivity.
    + rewrite Hr. intros k t [].
    + unfold maxTiles; lia.
    + exact Ht.
    + rewrite Hclk. lia.
    + exact (firstn_le_length maxTiles tiles).
  - intros b Hb. destruct (Hfr b ltac:(lia)) as [Hr' Ht'].
    rewrite prefetchNext_shape.
    destruct (nth_error (firstn maxTiles tiles) 0) as [t|]; cbn [trace timers].
    + rewrite requests_of_app, timers_of_app, Hr', Ht', (requests_of_other n b),
        (timers_of_other n b) by (reflexivity || lia). split; reflexivity.
    + rewrite requests_of_app, Hr', Ht'. split; reflexivity.
Qed.

Lemma startBatches_ok (t0 : Z) (ok : Tile -> bool) (layer : bool) (fuel : nat)
    (bs : list (LatLngBounds * nat)) :
  forall n st,
    clock st = t0 -> (forall b, batch_ok t0 st b) ->
    (forall b, (n <= b)%nat -> requests_of b (trace st) = [] /\ timers_of b (timers st) = []) ->
    forall b, batch_ok t0 (outcome_state (startBatches ok layer fuel n bs st)) b.
Proof.
  induction bs as [|[bd z] bs IH]; intros n st Hclk Hinv Hfr; cbn [startBatches].
  - exact Hinv.
  - destruct (prefetchBoundsAtZoom ok layer fuel n bd z st) as [st'|] eqn:E; [|exact Hinv].
    destruct (prefetchBoundsAtZoom_ok t0 ok layer fuel n bd z st st' Hclk Hinv Hfr E)
      as [H1 [H2 H3]].
    exact (IH (S n) st' H1 H2 H3).
Qed.

(** Every prefetch pass keeps every batch in order. *)
Lemma prefetchPass_ok (ok : Tile -> bool) (fuel steps : nat) (coffeePosts : list Post)
    (t0 : Z) (b : nat) :
  batch_ok t0 (outcome_state (prefetchPass ok fuel steps coffeePosts t0)) b.
Proof.
  assert (H0 : forall b, batch_ok t0 (mkRuntime t0 [] []) b).
  { intros b'. exists 0%nat. cbn. split; [reflexivity|]. split; [intros k t []|].
    split; [unfold maxTiles; lia | left; reflexivity]. }
  assert (Hs : forall b, batch_ok t0
                 (outcome_state (prefetchTilesForCoffeePosts ok true fuel coffeePosts
                                   (mkRuntime t0 [] []))) b).
  { unfold prefetchTilesForCoffeePosts. cbn [negb].
    destruct (group_posts no_groups coffeePosts) as [g|]; [|exact H0].
    apply startBatches_ok; [reflexivity | exact H0 | intros b' _; split; reflexivity]. }
  unfold prefetchPass.
  destruct (prefetchTilesForCoffeePosts ok true fuel coffeePosts (mkRuntime t0 [] [])) as [st|st|st];
    cbn [outcome_state] in Hs |- *; [apply run_timers_ok, Hs | apply run_timers_ok, Hs | apply Hs].
Qed.

(** ** The load outcome of a tile changes nothing *)

Lemma prefetchNext_indep (ok ok' : Tile -> bool) (b : nat) (tiles : list Tile) (i : nat)
    (st : Runtime) :
  prefetchNext ok b tiles i st = prefetchNext ok' b tiles i st.
Proof. rewrite !prefetchNext_shape. reflexivity. Qed.

Lemma run_timers_indep (ok ok' : Tile -> bool) (steps : nat) :
  forall st, run_timers ok steps st = run_timers ok' steps st.
Proof.
  induction steps as [|n IH]; intros st; cbn [run_timers]; [reflexivity|].
  destruct (pick (timers st)) as [[tm rest]|]; [|reflexivity].
  rewrite (prefetchNext_indep ok ok'). apply IH.
Qed.

Lemma prefetchBoundsAtZoom_indep (ok ok' : Tile -> bool) (layer : bool) (fuel n : nat)
    (bounds : LatLngBounds) (zoom : nat) (st : Runtime) :
  prefetchBoundsAtZoom ok layer fuel n bounds zoom st
  = prefetchBoundsAtZoom ok' layer fuel n bounds zoom st.
Proof.
  unfold prefetchBoundsAtZoom. destruct (negb layer); [reflexivity|].
  destruct (enumerateTiles fuel (getTileBounds bounds zoom) zoom); [|reflexivity].
  rewrite (prefetchNext_indep ok ok'). reflexivity.
Qed.

Lemma startBatches_indep (ok ok' : Tile -> bool) (layer : bool) (fuel : nat)
    (bs : list (LatLngBounds * nat)) :
  forall n st, startBatches ok layer fuel n bs st = startBatches ok' layer fuel n bs st.
Proof.
  induction bs as [|[bd z] bs IH]; intros n st; cbn [startBatches]; [reflexivity|].
  rewrite (prefetchBoundsAtZoom_indep ok ok').
  destruct (prefetchBoundsAtZoom ok' layer fuel n bd z st); [apply IH | reflexivity].
Qed.

Lemma prefetchPass_indep (ok ok' : Tile -> bool) (fuel steps : nat) (coffeePosts : list Post)
    (t0 : Z) :
  prefetchPass ok fuel steps coffeePosts t0 = prefetchPass ok' fuel steps coffeePosts t0.
Proof.
  unfold prefetchPass, prefetchTilesForCoffeePosts. cbn [negb].
  destruct (group_posts no_groups coffeePosts) as [g|].
  - rewrite (startBatches_indep ok ok').
    destruct (startBatches ok' true fuel 0 (batches g) (mkRuntime t0 [] []));
      rewrite ?(run_timers_indep ok ok'); reflexivity.
  - rewrite (run_timers_indep ok ok'). reflexivity.
Qed.

(** ** The requests of one batch *)

Lemma pairs_of_fst (f : nat -> Z) :
  forall (l : list (nat * Z)) (s : list nat),
    map fst l = s -> (forall k t, In (k, t) l -> t = f k) -> l = map (fun k => (k, f k)) s.
Proof.
  induction l as [|[k t] l IH]; intros s E H; subst s; cbn; [reflexivity|].
  rewrite (H k t (or_introl eq_refl)). f_equal.
  apply IH; [reflexivity|]. intros k' t' Hin. apply H. right. exact Hin.
Qed.

Lemma batch_requests (ok : Tile -> bool) (fuel steps : nat) (coffeePosts : list Post)
    (t0 : Z) (b : nat) :
  exists n, (n <= maxTiles)%nat /\
    requests_of b (trace (outcome_state (prefetchPass ok fuel steps coffeePosts t0)))
    = map (fun k => (k, (t0 + 50 * Z.of_nat k)%Z)) (seq 0 n).
Proof.
  destruct (prefetchPass_ok ok fuel steps coffeePosts t0 b) as [n [E [Ht [Hn _]]]].
  exists n. split; [exact Hn|]. apply pairs_of_fst; assumption.
Qed.

(** C3: in every prefetch pass, whatever the posts, the enumeration fuel,
    the number of timer callbacks run and the load outcomes, each
    [prefetchBoundsAtZoom] batch issues at most 20 tile requests. *)
Theorem prefetch_batch_capped (ok : Tile -> bool) (fuel steps : nat)
    (coffeePosts : list Post) (t0 : Z) (b : nat) :
  (List.length (requests_of b (trace (outcome_state (prefetchPass ok fuel steps coffeePosts t0))))
   <= 20)%nat.
Proof.
  destruct (batch_requests ok fuel steps coffeePosts t0 b) as [n [Hn E]].
  rewrite E, length_map, length_seq. exact Hn.
Qed.

(** C5: in every prefetch pass started at time [t0], the requests of each
    batch are its tiles 0, 1, ..., n-1 in this order, the k-th issued at
    time [t0 + 50 k]: every batch starts at once and consecutive requests
    are exactly 50 ms apart, with no other delay. *)
Theorem prefetch_batch_spacing (ok : Tile -> bool) (fuel steps : nat)
    (coffeePosts : list Post) (t0 : Z) (b : nat) :
  exists n, (n <= 20)%nat /\
    requests_of b (trace (outcome_state (prefetchPass ok fuel steps coffeePosts t0)))
    = map (fun k => (k, (t0 + 50 * Z.of_nat k)%Z)) (seq 0 n).
Proof. exact (batch_requests ok fuel steps coffeePosts t0 b). Qed.

(** C6: the error handler of [prefetchTile] does nothing; the whole pass,
    every request and its outcome, is the same whichever tiles fail to load
    ([ok] and [ok'] are any two load outcomes); and no batch requests a tile
    index twice, so nothing is retried. *)
Theorem tile_failure_ignored (ok ok' : Tile -> bool) (fuel steps : nat)
    (coffeePosts : list Post) (t0 : Z) :
  (forall st, onerror st = st) /\
  prefetchPass ok fuel steps coffeePosts t0 = prefetchPass ok' fuel steps coffeePosts t0 /\
  (forall b, NoDup (map fst (requests_of b
                     (trace (outcome_state (prefetchPass ok fuel steps coffeePosts t0)))))).
Proof.
  split; [reflexivity|]. split; [apply prefetchPass_indep|].
  intros b. destruct (batch_requests ok fuel steps coffeePosts t0 b) as [n [_ E]].
  rewrite E, map_map. cbn [fst]. rewrite map_id. apply seq_NoDup.
Qed.

(** ** The order of the requests across batches *)

Lemma loop_y_zoom (zoom : nat) (fuel : nat) :
  forall x y hi ts, loop_y fuel x y hi zoom = Some ts -> Forall (fun t => tz t = zoom) ts.
Proof.
  induction fuel as [|f IH]; intros x y hi ts E; cbn [loop_y] in E; [discriminate|].
  destruct (int_le y hi); [|injection E as <-; constructor].
  destruct (loop_y f x (int_incr y) hi zoom) as [ts'|] eqn:E'; [|discriminate].
  injection E as <-. constructor; [reflexivity | exact (IH _ _ _ _ E')].
Qed.

Lemma loop_x_zoom (zoom : nat) (fuel : nat) :
  forall x hi lo_y hi_y ts, loop_x fuel x hi lo_y hi_y zoom = Some ts ->
  Forall (fun t => tz t = zoom) ts.
Proof.
  induction fuel as [|f IH]; intros x hi lo_y hi_y ts E; cbn [loop_x] in E; [discriminate|].
  destruct (int_le x hi); [|injection E as <-; constructor].
  destruct (loop_y (S f) x lo_y hi_y zoom) as [r|] eqn:Er; [|discriminate].
  destruct (loop_x f (int_incr x) hi lo_y hi_y zoom) as [rs|] eqn:Ers; [|discriminate].
  injection E as <-. apply Forall_app. split; [exact (loop_y_zoom _ _ _ _ _ _ Er) | exact (IH _ _ _ _ _ Ers)].
Qed.

Lemma enumerateTiles_zoom (fuel : nat) (tb : TileBounds) (zoom : nat) (ts : list Tile) :
  enumerateTiles fuel tb zoom = Some ts -> Forall (fun t => tz t = zoom) ts.
Proof. apply loop_x_zoom. Qed.

Lemma getTileBounds_int (bounds : LatLngBounds) (zoom : nat) :
  (-90 < lat (getSouthWest bounds) < 90)%R -> (-90 < lat (getNorthEast bounds) < 90)%R ->
  getTileBounds bounds zoom =
  mkTileBounds
    (mkPoint (JInt (Z.min (slippy_x (lng (getSouthWest bounds)) zoom) (slippy_x (lng (getNorthEast bounds)) zoom)))
             (JInt (Z.min (slippy_y (lat (getSouthWest bounds)) zoom) (slippy_y (lat (getNorthEast bounds)) zoom))))
    (mkPoint (JInt (Z.max (slippy_x (lng (getSouthWest bounds)) zoom) (slippy_x (lng (getNorthEast bounds)) zoom)))
             (JInt (Z.max (slippy_y (lat (getSouthWest bounds)) zoom) (slippy_y (lat (getNorthEast bounds)) zoom)))).
Proof.
  intros Hsw Hne. unfold getTileBounds; cbn [px py].
  rewrite !tileX_fin, !tileY_fin by assumption.
  rewrite !Math_min_int, !Math_max_int. reflexivity.
Qed.

Lemma enumerate_rect (fuel : nat) (a b c d : Z) (zoom : nat) :
  (a <= b)%Z -> (c <= d)%Z -> (Z.to_nat (b - a) + Z.to_nat (d - c) + 3 <= fuel)%nat ->
  exists tiles,
    enumerateTiles fuel (mkTileBounds (mkPoint (JInt a) (JInt c)) (mkPoint (JInt b) (JInt d))) zoom
    = Some tiles /\
    List.length tiles = (Z.to_nat (b - a + 1) * Z.to_nat (d - c + 1))%nat /\
    Forall (fun t => tz t = zoom) tiles.
Proof.
  intros Hab Hcd Hf.
  destruct (loop_x_range (JInt c) (JInt d) zoom (Z.to_nat (d - c + 1))
              (fun fuel' x Hf' => loop_y_range x zoom (Z.to_nat (d - c + 1)) fuel' c d ltac:(lia) Hf')
              (Z.to_nat (b - a + 1)) fuel a b ltac:(lia) ltac:(lia)) as [ts [E Hl]].
  exists ts. split; [exact E|]. split; [exact Hl|].
  exact (loop_x_zoom _ _ _ _ _ _ _ E).
Qed.

Lemma Int_part_le (r : R) (z : Z) : (r < IZR z + 1)%R -> (Int_part r <= z)%Z.
Proof.
  intros H. destruct (base_Int_part r) as [H1 _].
  assert (IZR (Int_part r) < IZR (z + 1))%R by (rewrite plus_IZR; lra).
  apply lt_IZR in H0. lia.
Qed.

Lemma Int_part_ge (r : R) (z : Z) : (IZR z <= r)%R -> (z <= Int_part r)%Z.
Proof.
  intros H. destruct (base_Int_part r) as [_ H2].
  assert (IZR z - 1 < IZR (Int_part r))%R by lra.
  assert (IZR (z - 1) < IZR (Int_part r))%R by (rewrite minus_IZR; lra).
  apply lt_IZR in H1. lia.
Qed.

Lemma truthy_num_nonzero (r : R) : r <> 0%R -> truthy_num (Some r) = true.
Proof.
  intros H. unfold truthy_num. destruct (Rtotal_order r 0) as [Hl|[He|Hg]].
  - rewrite (R_sign_lt _ Hl). reflexivity.
  - contradiction.
  - rewrite (R_sign_gt _ Hg). reflexivity.
Qed.

(** C4, counterexample: two posts of the continent "Europe", at (10, -100)
    and (10, 100), with country and city "Unknown", make one group and two
    batches, at zoom 4 (twelve tiles) and at zoom 6.  Both batches start at
    once: their first requests are issued at time 0, and at time 50 the
    second zoom-4 request follows the first zoom-6 request of the same group. *)
Lemma prefetch_order_counterexample :
  ~ (forall (ok : Tile -> bool) (fuel steps : nat) (coffeePosts : list Post) (t0 : Z),
       zoom_ascending_per_group (trace (outcome_state (prefetchPass ok fuel steps coffeePosts t0))) /\
       groups_not_interleaved (trace (outcome_state (prefetchPass ok fuel steps coffeePosts t0)))).
Proof.
  intros H.
  assert (Eg : group_posts no_groups
                 [mkPost (Some 10%R) (Some (-100)%R) (Some "Europe"%string) (Some "Unknown"%string) (Some "Unknown"%string);
                  mkPost (Some 10%R) (Some 100%R) (Some "Europe"%string) (Some "Unknown"%string) (Some "Unknown"%string)]
               = Some (mkGroups [("europe"%string, [mkLatLng 10 (-100); mkLatLng 10 100])] [] [])).
  { unfold group_posts, group_post; cbn [latitude longitude continent country city].
    rewrite !truthy_num_nonzero by lra. reflexivity. }
  set (B := pad (latLngBounds (mkLatLng 10 (-100)) [mkLatLng 10 100]) (15 / 100)).
  assert (Eb : batches (mkGroups [("europe"%string, [mkLatLng 10 (-100); mkLatLng 10 100])] [] [])
               = [(B, 4%nat); (B, 6%nat)]) by reflexivity.
  assert (Esw : getSouthWest B = mkLatLng 10 (-130)).
  { unfold B, pad, latLngBounds, getSouthWest; cbn [fold_left extend southWest northEast lat lng].
    f_equal; unfold Rmin, Rmax, Rabs;
      repeat match goal with
             | |- context [Rle_dec ?a ?b] => destruct (Rle_dec a b)
             | |- context [Rcase_abs ?a] => destruct (Rcase_abs a)
             end; lra. }
  assert (Ene : getNorthEast B = mkLatLng 10 130).
  { unfold B, pad, latLngBounds, getNorthEast; cbn [fold_left extend southWest northEast lat lng].
    f_equal; unfold Rmin, Rmax, Rabs;
      repeat match goal with
             | |- context [Rle_dec ?a ?b] => destruct (Rle_dec a b)
             | |- context [Rcase_abs ?a] => destruct (Rcase_abs a)
             end; lra. }
  assert (E4 : exists tiles, enumerateTiles 100 (getTileBounds B 4) 4 = Some tiles /\
                             (2 <= List.length tiles)%nat /\ Forall (fun t => tz t = 4%nat) tiles).
  { rewrite getTileBounds_int by (rewrite ?Esw, ?Ene; cbn [lat]; lra).
    rewrite Esw, Ene. cbn [lat lng]. rewrite Z.min_id, Z.max_id.
    assert (Hs : (0 <= slippy_x (-130) 4 <= 2)%Z).
    { unfold slippy_x; split; [apply Int_part_ge | apply Int_part_le]; cbn [pow]; lra. }
    assert (Hn : (13 <= slippy_x 130 4 <= 16)%Z).
    { unfold slippy_x; split; [apply Int_part_ge | apply Int_part_le]; cbn [pow]; lra. }
    rewrite Z.min_l, Z.max_r by lia.
    destruct (enumerate_rect 100 (slippy_x (-130) 4) (slippy_x 130 4)
                (slippy_y 10 4) (slippy_y 10 4) 4) as [ts [E [L F]]]; [lia | lia | lia |].
    exists ts. split; [exact E|]. split; [|exact F]. rewrite L. lia. }
  assert (E6 : exists tiles, enumerateTiles 100 (getTileBounds B 6) 6 = Some tiles /\
                             (1 <= List.length tiles)%nat /\ Forall (fun t => tz t = 6%nat) tiles).
  { rewrite getTileBounds_int by (rewrite ?Esw, ?Ene; cbn [lat]; lra).
    rewrite Esw, Ene. cbn [lat lng]. rewrite Z.min_id, Z.max_id.
    assert (Hs : (0 <= slippy_x (-130) 6 <= 64)%Z).
    { unfold slippy_x; split; [apply Int_part_ge | apply Int_part_le]; cbn [pow]; lra. }
    assert (Hn : (0 <= slippy_x 130 6 <= 64)%Z).
    { unfold slippy_x; split; [apply Int_part_ge | apply Int_part_le]; cbn [pow]; lra. }
    destruct (enumerate_rect 100 (Z.min (slippy_x (-130) 6) (slippy_x 130 6))
                (Z.max (slippy_x (-130) 6) (slippy_x 130 6))
                (slippy_y 10 6) (slippy_y 10 6) 6) as [ts [E [L F]]]; [lia | lia | lia |].
    exists ts. split; [exact E|]. split; [|exact F]. rewrite L. lia. }
  destruct E4 as [ts4 [E4 [L4 F4]]], E6 as [ts6 [E6 [L6 F6]]].
  destruct (H (fun _ => true) 100 1
              [mkPost (Some 10%R) (Some (-100)%R) (Some "Europe"%string) (Some "Unknown"%string) (Some "Unknown"%string);
               mkPost (Some 10%R) (Some 100%R) (Some "Europe"%string) (Some "Unknown"%string) (Some "Unknown"%string)]
              0%Z) as [Hz _].
  unfold prefetchPass, prefetchTilesForCoffeePosts in Hz. cbn [negb] in Hz.
  rewrite Eg, Eb in Hz. cbn [startBatches] in Hz. unfold prefetchBoundsAtZoom in Hz.
  cbv beta zeta in Hz. cbn [negb] in Hz. rewrite E4, E6 in Hz.
  destruct ts4 as [|t1 [|t2 r4]]; [cbn in L4; lia | cbn in L4; lia |].
  destruct ts6 as [|u1 r6]; [cbn in L6; lia |].
  inversion F4 as [|? ? Ht1 F4']; inversion F4' as [|? ? Ht2 _]; inversion F6 as [|? ? Hu1 _].
  unfold zoom_ascending_per_group in Hz. cbn -[tileUrl] in Hz.
  specialize (Hz 1 2 _ _ _ _ _ _ _ _ _ _ ltac:(lia) eq_refl eq_refl eq_refl).
  lia.
Qed.

Lemma pairs_with_app (z1 z2 : nat) :
  forall n A B, (List.length A <= n)%nat ->
  pairs_with z1 z2 A -> pairs_with z1 z2 B -> pairs_with z1 z2 (A ++ B).
Proof.
  induction n as [|n IH]; intros A B HA PA PB.
  - destruct A; [exact PB | cbn in HA; lia].
  - destruct A as [|[b1 y1] [|[b2 y2] A']]; cbn in PA |- *; [exact PB | contradiction |].
    destruct PA as [E1 [E2 [E3 PA']]]. split; [exact E1|]. split; [exact E2|].
    split; [exact E3|]. apply IH; [cbn in HA; lia | exact PA' | exact PB].
Qed.

Lemma groupBatches_pairs (ratio : R) (z1 z2 minCount : nat) (o : Obj) :
  pairs_with z1 z2 (groupBatches ratio z1 z2 minCount o).
Proof.
  unfold groupBatches. induction (entries o) as [|e es IH]; cbn [flat_map]; [exact I|].
  apply (pairs_with_app z1 z2 (List.length
           (match snd e with
            | [] => []
            | c :: cs => if Nat.ltb minCount (List.length (c :: cs))
                         then [(pad (latLngBounds c cs) ratio, z1); (pad (latLngBounds c cs) ratio, z2)]
                         else []
            end))); [lia | | exact IH].
  destruct (snd e) as [|c cs]; [exact I|].
  destruct (Nat.ltb minCount (List.length (c :: cs))); cbn; [|exact I].
  split; [reflexivity|]. split; [reflexivity|]. split; [reflexivity | exact I].
Qed.

Lemma prefetchBoundsAtZoom_sync (ok : Tile -> bool) (fuel n : nat) (bounds : LatLngBounds)
    (zoom : nat) (st st' : Runtime) :
  prefetchBoundsAtZoom ok true fuel n bounds zoom st = Some st' ->
  clock st' = clock st /\
  (trace st' = trace st ++ [Resolve (clock st) n] \/
   exists t, tz t = zoom /\
     trace st' = trace st ++ [Request (clock st) n 0 t (tileUrl (tx t) (ty t) (tz t))]).
Proof.
  intros E. unfold prefetchBoundsAtZoom in E. cbn [negb] in E.
  destruct (enumerateTiles fuel (getTileBounds bounds zoom) zoom) as [tiles|] eqn:Et;
    [|discriminate].
  assert (Est : st' = prefetchNext ok n (firstn maxTiles tiles) 0 st) by congruence.
  clear E. subst st'. rewrite prefetchNext_shape.
  destruct (nth_error (firstn maxTiles tiles) 0) as [t|] eqn:Ht; cbn [clock trace].
  - split; [reflexivity|]. right. exists t. split; [|reflexivity].
    apply nth_error_In in Ht.
    assert (Hin : In t tiles).
    { rewrite <- (firstn_skipn maxTiles tiles). apply in_or_app. left. exact Ht. }
    exact (proj1 (Forall_forall _ _) (enumerateTiles_zoom _ _ _ _ Et) t Hin).
  - split; [reflexivity|]. left. reflexivity.
Qed.

Lemma req_batches_app (tr tr' : list event) :
  req_batches (tr ++ tr') = req_batches tr ++ req_batches tr'.
Proof. unfold req_batches. apply flat_map_app. Qed.

Lemma in_req_batches (b : nat) (tr : list event) :
  In b (req_batches tr) -> exists s i t u, In (Request s b i t u) tr.
Proof.
  unfold req_batches. rewrite in_flat_map. intros [e [He Hb]].
  destruct e as [s b' i t u|s b']; cbn in Hb; [|contradiction].
  destruct Hb as [<-|[]]. exists s, i, t, u. exact He.
Qed.

Lemma StronglySorted_snoc (l : list nat) (n : nat) :
  StronglySorted lt l -> Forall (fun b => (b < n)%nat) l -> StronglySorted lt (l ++ [n]).
Proof.
  induction l as [|a l IH]; intros Hs Hf; cbn.
  - constructor; constructor.
  - inversion Hs as [|? ? Hs' Ha]; subst. inversion Hf as [|? ? Han Hf']; subst.
    constructor; [exact (IH Hs' Hf')|].
    apply Forall_app. split; [exact Ha | constructor; [exact Han | constructor]].
Qed.

Lemma startBatches_sync (ok : Tile -> bool) (fuel : nat) (t0 : Z)
    (full : list (LatLngBounds * nat)) :
  forall bs n st,
    clock st = t0 ->
    (forall k, nth_error bs k = nth_error full (n + k)) ->
    StronglySorted lt (req_batches (trace st)) ->
    (forall s b i t u, In (Request s b i t u) (trace st) ->
       (b < n)%nat /\ s = t0 /\ i = 0%nat /\ exists bd, nth_error full b = Some (bd, tz t)) ->
    let st'' := outcome_state (startBatches ok true fuel n bs st) in
    StronglySorted lt (req_batches (trace st'')) /\
    (forall s b i t u, In (Request s b i t u) (trace st'') ->
       s = t0 /\ i = 0%nat /\ exists bd, nth_error full b = Some (bd, tz t)).
Proof.
  induction bs as [|[bd z] bs IH]; intros n st Hclk Hbs Hs Hin; cbv zeta; cbn [startBatches].
  - split; [exact Hs|]. intros s b i t u H. apply Hin in H. tauto.
  - destruct (prefetchBoundsAtZoom ok true fuel n bd z st) as [st'|] eqn:E.
    2:{ split; [exact Hs|]. intros s b i t u H. apply Hin in H. tauto. }
    assert (Hn : nth_error full n = Some (bd, z)).
    { rewrite <- (Nat.add_0_r n), <- Hbs. reflexivity. }
    assert (Hbs' : forall k, nth_error bs k = nth_error full (S n + k)).
    { intros k. replace (S n + k)%nat with (n + S k)%nat by lia. rewrite <- Hbs. reflexivity. }
    destruct (prefetchBoundsAtZoom_sync ok fuel n bd z st st' E) as [Hc [Etr|[t [Ht Etr]]]];
      (apply IH; [rewrite Hc; exact Hclk | exact Hbs' | |]); rewrite Etr.
    + rewrite req_batches_app. cbn. rewrite app_nil_r. exact Hs.
    + intros s b i t u H. apply in_app_or in H. destruct H as [H|[H|[]]]; [|discriminate].
      destruct (Hin s b i t u H) as [Hb R]. split; [lia | exact R].
    + rewrite req_batches_app. cbn.
      apply StronglySorted_snoc; [exact Hs|]. apply Forall_forall. intros b Hb.
      destruct (in_req_batches b _ Hb) as [s [i [t' [u Hr]]]]. exact (proj1 (Hin _ _ _ _ _ Hr)).
    + intros s b i t' u H. apply in_app_or in H. destruct H as [H|[H|[]]].
      * destruct (Hin s b i t' u H) as [Hb R]. split; [lia | exact R].
      * injection H as <- <- <- <- _. split; [lia|]. split; [exact Hclk|]. split; [reflexivity|].
        exists bd. rewrite Hn, Ht. reflexivity.
Qed.

(** C4 (amended): what the order of the requests does guarantee.  The
    batches are made group by group, continents, then countries, then
    cities, each group giving its lower zoom level (4, 8, 12) then its higher
    one (6, 10, 14).  The synchronous call [prefetchTilesForCoffeePosts]
    starts them in that order: it issues at most one request per batch, in
    increasing batch order, each at the call time [t0], for the batch's
    first tile and at the batch's zoom level.  Later requests of all batches
    interleave (see [prefetch_order_counterexample] and
    [prefetch_batch_spacing]). *)
Theorem prefetch_start_order (ok : Tile -> bool) (fuel : nat) (coffeePosts : list Post)
    (t0 : Z) (g : Groups) :
  group_posts no_groups coffeePosts = Some g ->
  (exists A B C, batches g = A ++ B ++ C /\
     pairs_with 4 6 A /\ pairs_with 8 10 B /\ pairs_with 12 14 C) /\
  (let st := outcome_state (prefetchTilesForCoffeePosts ok true fuel coffeePosts
                              (mkRuntime t0 [] [])) in
   StronglySorted lt (req_batches (trace st)) /\
   (forall s b i t u, In (Request s b i t u) (trace st) ->
      s = t0 /\ i = 0%nat /\ exists bd, nth_error (batches g) b = Some (bd, tz t))).
Proof.
  intros Hg. split.
  - exists (groupBatches (15 / 100) 4 6 0 (regions g)),
           (groupBatches (2 / 10) 8 10 0 (countries g)),
           (groupBatches (3 / 10) 12 14 1 (cities g)).
    split; [reflexivity|]. split; [apply groupBatches_pairs|].
    split; apply groupBatches_pairs.
  - unfold prefetchTilesForCoffeePosts. cbn [negb]. rewrite Hg.
    apply startBatches_sync; [reflexivity | reflexivity | constructor |].
    intros s b i t u [].
Qed.

(** * The theorems at concrete inputs *)



(** The URL of the tile (1, 2, 3): subdomain 'd'. *)
Lemma prefetchTile_url_witness :
  (0 <= 1 + 2)%Z /\
  trace (prefetchTile (fun _ => true) 0 0 (mkTile (JInt 1) (JInt 2) 3) (mkRuntime 0 [] []))
  = [Request 0 0 0 (mkTile (JInt 1) (JInt 2) 3) (spec_tile_url 1 2 3)].
Proof.
  split; [lia|].
  exact (proj1 (proj2 (prefetchTile_url (fun _ => true) 0 0 1 2 3 (mkRuntime 0 [] [])))
                 ltac:(lia)).
Defined.

(** C2 on a store holding the row 7 of hash "h": inserting a record of hash
    "h" returns 7 and adds nothing. *)
Lemma import_idempotent_witness :
  PostStore.find_hash "h"%string
    (PostStore.rows (PostStore.mkStore
       [PostStore.mkRow 7 "h" (PostStore.mkSource None None None None None None)] 8))
  = Some (PostStore.mkRow 7 "h" (PostStore.mkSource None None None None None None)) /\
  PostStore.insert (fun _ => "h"%string)
    (PostStore.mkStore [PostStore.mkRow 7 "h" (PostStore.mkSource None None None None None None)] 8)
    (PostStore.mkSource (Some "t"%string) None None None None None)
  = (7%nat, false,
     PostStore.mkStore [PostStore.mkRow 7 "h" (PostStore.mkSource None None None None None None)] 8).
Proof.
  assert (E : PostStore.find_hash "h"%string
    (PostStore.rows (PostStore.mkStore
       [PostStore.mkRow 7 "h" (PostStore.mkSource None None None None None None)] 8))
    = Some (PostStore.mkRow 7 "h" (PostStore.mkSource None None None None None None)))
    by reflexivity.
  split; [exact E|].
  exact (proj1 (import_idempotent (fun _ => "h"%string)
                  (PostStore.mkStore [PostStore.mkRow 7 "h" (PostStore.mkSource None None None None None None)] 8)
                  [])
               (PostStore.mkSource (Some "t"%string) None None None None None) _ E).
Defined.

(** C9 at a post on the equator. *)
Lemma falsy_coordinates_excluded_witness :
  latitude (mkPost (Some 0%R) (Some 5%R) None None None) = Some 0%R /\
  markers_of [mkPost (Some 0%R) (Some 5%R) None None None] = markers_of [].
Proof.
  split; [reflexivity|].
  exact (proj1 (falsy_coordinates_excluded (mkPost (Some 0%R) (Some 5%R) None None None) [] []
                  (or_intror (or_introl eq_refl)))).
Defined.

(** C7 at one post of Paris whose continent and country are "Unknown". *)
Lemma grouping_drops_unknown_witness :
  group_posts no_groups
    [mkPost (Some 1%R) (Some 1%R) (Some "Unknown"%string) (Some "Unknown"%string) (Some "Paris"%string)]
  = Some (mkGroups [] [] [("Paris"%string, [mkLatLng 1 1])]) /\
  ~ In "Unknown"%string (map fst (countries (mkGroups [] [] [("Paris"%string, [mkLatLng 1 1])]))).
Proof.
  assert (E : group_posts no_groups
    [mkPost (Some 1%R) (Some 1%R) (Some "Unknown"%string) (Some "Unknown"%string) (Some "Paris"%string)]
    = Some (mkGroups [] [] [("Paris"%string, [mkLatLng 1 1])])).
  { unfold group_posts, group_post; cbn [latitude longitude continent country city].
    rewrite !truthy_num_nonzero by lra. reflexivity. }
  split; [exact E|].
  exact (proj1 (proj2 (proj2 (grouping_drops_unknown _ _ E)))).
Defined.

(** C4 (amended) at one post of the continent "Asia". *)
Lemma prefetch_start_order_witness :
  group_posts no_groups
    [mkPost (Some 10%R) (Some 20%R) (Some "Asia"%string) (Some "Unknown"%string) (Some "Unknown"%string)]
  = Some (mkGroups [("asia"%string, [mkLatLng 10 20])] [] []) /\
  StronglySorted lt (req_batches (trace (outcome_state
    (prefetchTilesForCoffeePosts (fun _ => true) true 100
       [mkPost (Some 10%R) (Some 20%R) (Some "Asia"%string) (Some "Unknown"%string) (Some "Unknown"%string)]
       (mkRuntime 0 [] []))))).
Proof.
  assert (E : group_posts no_groups
    [mkPost (Some 10%R) (Some 20%R) (Some "Asia"%string) (Some "Unknown"%string) (Some "Unknown"%string)]
    = Some (mkGroups [("asia"%string, [mkLatLng 10 20])] [] [])).
  { unfold group_posts, group_post; cbn [latitude longitude continent country city].
    rewrite !truthy_num_nonzero by lra. reflexivity. }
  split; [exact E|].
  exact (proj1 (proj2 (prefetch_start_order (fun _ => true) 100 _ 0 _ E))).
Defined.

(** * Further properties of the prefetching code *)

(** ** The tile indices of [getTileBounds] *)





Lemma pow2_IZR (zoom : nat) : (2 ^ zoom)%R = IZR (2 ^ Z.of_nat zoom).
Proof. rewrite <- pow_IZR. reflexivity. Qed.








(** ** The groups of [prefetchTilesForCoffeePosts] *)

Lemma obj_get_push (k k' : string) (p : LatLng) (o : Obj) :
  obj_get k (obj_push k' p o) =
  if String.eqb k k' then option_map (fun v => v ++ [p]) (obj_get k o) else obj_get k o.
Proof.
  induction o as [|[k0 v] o IH]; cbn [obj_push obj_get].
  - destruct (String.eqb k k'); reflexivity.
  - destruct (String.eqb_spec k' k0) as [<-|Hne].
    + cbn [obj_get]. destruct (String.eqb k k'); reflexivity.
    + cbn [obj_get]. rewrite IH.
      destruct (String.eqb_spec k k0) as [->|Hk0].
      * rewrite (proj2 (String.eqb_neq k0 k')) by congruence. reflexivity.
      * destruct (String.eqb k k'); reflexivity.
Qed.

Lemma obj_get_snoc (k k' : string) (v : list LatLng) (o : Obj) :
  obj_get k (o ++ [(k', v)]) =
  match obj_get k o with Some w => Some w | None => if String.eqb k k' then Some v else None end.
Proof.
  induction o as [|[k0 w] o IH]; cbn; [reflexivity|].
  destruct (String.eqb k k0); [reflexivity | exact IH].
Qed.


Lemma opt_app_nil (o : option (list LatLng)) : opt_app o [] = o.
Proof. destruct o; cbn; [rewrite app_nil_r|]; reflexivity. Qed.

Lemma opt_app_assoc (o : option (list LatLng)) (l1 l2 : list LatLng) :
  opt_app (opt_app o l1) l2 = opt_app o (l1 ++ l2).
Proof. destruct o, l1, l2; cbn; rewrite ?app_nil_r, <- ?app_assoc; reflexivity. Qed.

Lemma members_cons (key : Post -> option string) (skip k : string) (p : Post) (ps : list Post) :
  members key skip k (p :: ps) = members key skip k [p] ++ members key skip k ps.
Proof.
  cbn. destruct (post_point p), (key p); try reflexivity.
  destruct (_ && _ && _)%bool; reflexivity.
Qed.

Lemma group_into_get (o o' : Obj) (ko : option string) (skip : string) (pt : LatLng) (k : string) :
  group_into o ko skip pt = Some o' ->
  obj_get k o' =
  opt_app (obj_get k o)
    (match ko with
     | Some s => if (String.eqb s k && negb (String.eqb s EmptyString) && negb (String.eqb s skip))%bool
                 then [pt] else []
     | None => []
     end).
Proof.
  unfold group_into. intros E. destruct ko as [s|]; [|injection E as <-; rewrite opt_app_nil; reflexivity].
  unfold truthy_str in E.
  destruct (negb (String.eqb s EmptyString) && negb (String.eqb s skip))%bool eqn:C.
  - unfold group_push in E.
    destruct (obj_get s o) as [w|] eqn:Es.
    + injection E as <-. rewrite obj_get_push.
      destruct (String.eqb_spec s k) as [->|Hsk].
      * rewrite String.eqb_refl. cbn [andb]. rewrite C, Es. reflexivity.
      * rewrite (proj2 (String.eqb_neq k s)) by congruence. cbn. rewrite opt_app_nil. reflexivity.
    + destruct (existsb (String.eqb s) proto_keys); [discriminate|].
      injection E as <-. rewrite obj_get_snoc.
      destruct (String.eqb_spec s k) as [->|Hsk].
      * rewrite String.eqb_refl. cbn [andb]. rewrite C, Es. reflexivity.
      * rewrite (proj2 (String.eqb_neq k s)) by congruence. cbn. rewrite opt_app_nil.
        destruct (obj_get k o); reflexivity.
  - injection E as <-. rewrite andb_comm in C. rewrite <- andb_assoc.
    rewrite (andb_comm (negb _)), C, andb_false_r. rewrite opt_app_nil. reflexivity.
Qed.

Lemma group_post_get (g g' : Groups) (p : Post) (k : string) :
  group_post g p = Some g' ->
  obj_get k (regions g') = opt_app (obj_get k (regions g)) (members continent_key "unknown" k [p]) /\
  obj_get k (countries g') = opt_app (obj_get k (countries g)) (members country "Unknown" k [p]) /\
  obj_get k (cities g') = opt_app (obj_get k (cities g)) (members city "Unknown" k [p]).
Proof.
  unfold group_post, members, post_point, continent_key. intros E.
  destruct (truthy_num (latitude p) && truthy_num (longitude p))%bool; cbn [negb] in E.
  2:{ injection E as <-. rewrite !opt_app_nil. auto. }
  destruct (latitude p) as [la|], (longitude p) as [lo|];
    try (injection E as <-; rewrite !opt_app_nil; auto).
  cbv zeta in E.
  destruct (group_into (regions g) _ _ _) as [rg|] eqn:Er; [|discriminate].
  destruct (group_into (countries g) _ _ _) as [co|] eqn:Ec; [|discriminate].
  destruct (group_into (cities g) _ _ _) as [ci|] eqn:Ei; [|discriminate].
  injection E as <-. cbn [regions countries cities].
  rewrite (group_into_get _ _ _ _ _ k Er), (group_into_get _ _ _ _ _ k Ec),
          (group_into_get _ _ _ _ _ k Ei).
  repeat split;
    match goal with
    | |- opt_app _ ?l = opt_app _ ?l' => f_equal
    end;
    match goal with
    | |- context [match ?o with Some _ => _ | None => _ end] => destruct o
    end; try reflexivity;
    destruct (_ && _ && _)%bool; reflexivity.
Qed.

Lemma group_posts_get (posts : list Post) (k : string) :
  forall g g', group_posts g posts = Some g' ->
  obj_get k (regions g') = opt_app (obj_get k (regions g)) (members continent_key "unknown" k posts) /\
  obj_get k (countries g') = opt_app (obj_get k (countries g)) (members country "Unknown" k posts) /\
  obj_get k (cities g') = opt_app (obj_get k (cities g)) (members city "Unknown" k posts).
Proof.
  induction posts as [|p ps IH]; intros g g' E; cbn [group_posts] in E.
  - injection E as <-. cbn [members]. rewrite !opt_app_nil. auto.
  - destruct (group_post g p) as [g1|] eqn:E1; [|discriminate].
    destruct (group_post_get g g1 p k E1) as [A1 [B1 C1]].
    destruct (IH g1 g' E) as [A2 [B2 C2]].
    rewrite (members_cons continent_key), (members_cons country), (members_cons city).
    rewrite <- !opt_app_assoc, <- A1, <- B1, <- C1. auto.
Qed.

(** After grouping, each group holds exactly the points of the posts with
    that key, in post order: looking up a key [k] in the continent, country
    or city object gives the points of the posts whose normalised continent,
    country or city is [k] (nothing when there is none, or when [k] is empty
    or the placeholder the loop skips). *)
Theorem group_posts_members (posts : list Post) (g : Groups) (k : string) :
  group_posts no_groups posts = Some g ->
  obj_get k (regions g) = opt_app None (members continent_key "unknown" k posts) /\
  obj_get k (countries g) = opt_app None (members country "Unknown" k posts) /\
  obj_get k (cities g) = opt_app None (members city "Unknown" k posts).
Proof. intros E. exact (group_posts_get posts k no_groups g E). Qed.

Lemma group_posts_app (g : Groups) (ps1 ps2 : list Post) :
  group_posts g (ps1 ++ ps2) =
  match group_posts g ps1 with Some g1 => group_posts g1 ps2 | None => None end.
Proof.
  revert g. induction ps1 as [|p ps1 IH]; intros g; cbn [app group_posts]; [reflexivity|].
  destruct (group_post g p); [apply IH | reflexivity].
Qed.

Lemma proto_key_props (s : string) :
  In s proto_keys -> s <> EmptyString /\ s <> "unknown"%string /\ s <> "Unknown"%string.
Proof.
  intros H. unfold proto_keys in H.
  repeat (destruct H as [<-|H]; [split; [discriminate | split; discriminate]|]). destruct H.
Qed.

Lemma group_into_proto (o : Obj) (s skip : string) (pt : LatLng) :
  In s proto_keys -> obj_get s o = None -> s <> skip -> group_into o (Some s) skip pt = None.
Proof.
  intros Hs Hg Hk. destruct (proto_key_props s Hs) as [He _].
  unfold group_into, truthy_str.
  rewrite (proj2 (String.eqb_neq s EmptyString) He), (proj2 (String.eqb_neq s skip) Hk).
  cbn [negb andb]. unfold group_push. rewrite Hg.
  replace (existsb (String.eqb s) proto_keys) with true; [reflexivity|].
  symmetry. apply existsb_exists. exists s. split; [exact Hs | apply String.eqb_refl].
Qed.

Lemma group_into_no_proto (o o' : Obj) (ko : option string) (skip : string) (pt : LatLng) :
  no_proto o -> group_into o ko skip pt = Some o' -> no_proto o'.
Proof.
  intros Hn E s Hs. unfold group_into in E.
  destruct ko as [k|]; [|injection E as <-; apply Hn, Hs].
  destruct (truthy_str (Some k) && negb (String.eqb k skip))%bool; [|injection E as <-; apply Hn, Hs].
  unfold group_push in E. destruct (obj_get k o) eqn:Ek.
  - injection E as <-. rewrite obj_get_push, (Hn s Hs). destruct (String.eqb s k); reflexivity.
  - destruct (existsb (String.eqb k) proto_keys) eqn:Ep; [discriminate|].
    injection E as <-. rewrite obj_get_snoc, (Hn s Hs).
    destruct (String.eqb_spec s k) as [->|]; [|reflexivity].
    assert (existsb (String.eqb k) proto_keys = true)
      by (apply existsb_exists; exists k; split; [exact Hs | apply String.eqb_refl]).
    congruence.
Qed.

Lemma group_post_no_proto (g g' : Groups) (p : Post) :
  no_proto (regions g) /\ no_proto (countries g) /\ no_proto (cities g) ->
  group_post g p = Some g' ->
  no_proto (regions g') /\ no_proto (countries g') /\ no_proto (cities g').
Proof.
  intros [H1 [H2 H3]] E. unfold group_post in E.
  destruct (negb (truthy_num (latitude p) && truthy_num (longitude p))).
  { injection E as <-. auto. }
  destruct (latitude p), (longitude p); try (injection E as <-; auto).
  cbv zeta in E.
  destruct (group_into (regions g) _ _ _) as [rg|] eqn:Er; [|discriminate].
  destruct (group_into (countries g) _ _ _) as [co|] eqn:Ec; [|discriminate].
  destruct (group_into (cities g) _ _ _) as [ci|] eqn:Ei; [|discriminate].
  injection E as <-. cbn [regions countries cities].
  split; [exact (group_into_no_proto _ _ _ _ _ H1 Er)|].
  split; [exact (group_into_no_proto _ _ _ _ _ H2 Ec)|].
  exact (group_into_no_proto _ _ _ _ _ H3 Ei).
Qed.

Lemma group_posts_no_proto (posts : list Post) :
  forall g g', no_proto (regions g) /\ no_proto (countries g) /\ no_proto (cities g) ->
  group_posts g posts = Some g' ->
  no_proto (regions g') /\ no_proto (countries g') /\ no_proto (cities g').
Proof.
  induction posts as [|p ps IH]; intros g g' Hg E; cbn [group_posts] in E.
  - injection E as <-. exact Hg.
  - destruct (group_post g p) as [g1|] eqn:E1; [|discriminate].
    exact (IH g1 g' (group_post_no_proto g g1 p Hg E1) E).
Qed.

Lemma group_post_proto (g : Groups) (p : Post) (s : string) :
  no_proto (regions g) /\ no_proto (countries g) /\ no_proto (cities g) ->
  post_point p <> None -> In s proto_keys ->
  (continent_key p = Some s \/ country p = Some s \/ city p = Some s) ->
  group_post g p = None.
Proof.
  intros [H1 [H2 H3]] Hp Hs Hk. destruct (proto_key_props s Hs) as [_ [Hu HU]].
  unfold post_point in Hp. unfold group_post.
  destruct (truthy_num (latitude p) && truthy_num (longitude p))%bool; [|contradiction].
  destruct (latitude p) as [la|], (longitude p) as [lo|]; try contradiction.
  cbn [negb]. cbv zeta. unfold continent_key in Hk.
  destruct Hk as [Hk|[Hk|Hk]].
  - rewrite Hk, (group_into_proto _ _ _ _ Hs (H1 s Hs) Hu). reflexivity.
  - destruct (group_into (regions g) _ _ _); [|reflexivity].
    rewrite Hk, (group_into_proto _ _ _ _ Hs (H2 s Hs) HU). reflexivity.
  - destruct (group_into (regions g) _ _ _); [|reflexivity].
    destruct (group_into (countries g) _ _ _); [|reflexivity].
    rewrite Hk, (group_into_proto _ _ _ _ Hs (H3 s Hs) HU). reflexivity.
Qed.

(** A post with coordinates whose normalised continent, country or city is
    the name of an [Object.prototype] property (such as "constructor")
    makes [regions[key].push] a TypeError: the whole pass throws before
    its first batch, so it issues no request and sets no timer. *)
Theorem proto_key_throws (posts : list Post) :
  (exists p s, In p posts /\ post_point p <> None /\ In s proto_keys /\
     (continent_key p = Some s \/ country p = Some s \/ city p = Some s)) ->
  forall (ok : Tile -> bool) (fuel steps : nat) (t0 : Z),
    prefetchPass ok fuel steps posts t0 = Threw (mkRuntime t0 [] []).
Proof.
  intros [p [s [Hin [Hp [Hs Hk]]]]] ok fuel steps t0.
  assert (E : group_posts no_groups posts = None).
  { destruct (in_split p posts Hin) as [ps1 [ps2 ->]].
    rewrite group_posts_app. destruct (group_posts no_groups ps1) as [g1|] eqn:E1; [|reflexivity].
    assert (N : no_proto (regions g1) /\ no_proto (countries g1) /\ no_proto (cities g1)).
    { apply (group_posts_no_proto ps1 no_groups g1); [|exact E1].
      repeat split; intros x _; reflexivity. }
    cbn [group_posts]. rewrite (group_post_proto g1 p s N Hp Hs Hk). reflexivity. }
  unfold prefetchPass, prefetchTilesForCoffeePosts. cbn [negb]. rewrite E.
  destruct steps; reflexivity.
Qed.

(** ** The number of batches *)

Lemma perm_insert_by_index (x : string * list LatLng) (l : Obj) :
  Permutation (insert_by_index x l) (x :: l).
Proof.
  induction l as [|y l IH]; cbn; [reflexivity|].
  destruct (Z.leb (index_of_entry x) (index_of_entry y)); [reflexivity|].
  etransitivity; [apply perm_skip, IH | apply perm_swap].
Qed.

Lemma perm_filter_split {A : Type} (f : A -> bool) (l : list A) :
  Permutation (filter f l ++ filter (fun e => negb (f e)) l) l.
Proof.
  induction l as [|a l IH]; cbn; [reflexivity|].
  destruct (f a); cbn.
  - apply perm_skip, IH.
  - symmetry. apply Permutation_cons_app. symmetry. exact IH.
Qed.

Lemma perm_entries (o : Obj) : Permutation (entries o) o.
Proof.
  unfold entries.
  assert (G : forall l, Permutation (fold_right insert_by_index [] l) l).
  { induction l as [|x l IH]; cbn; [reflexivity|].
    etransitivity; [apply perm_insert_by_index | apply perm_skip, IH]. }
  etransitivity; [apply Permutation_app_tail, G | apply perm_filter_split].
Qed.

Lemma flat_map_perm_length {A B : Type} (F : A -> list B) (l l' : list A) :
  Permutation l l' -> List.length (flat_map F l) = List.length (flat_map F l').
Proof.
  induction 1; cbn; rewrite ?length_app in *; lia.
Qed.

Lemma groupBatches_length (ratio : R) (z1 z2 minCount : nat) (o : Obj) :
  nonempty_groups o ->
  List.length (groupBatches ratio z1 z2 minCount o) =
  (2 * List.length (filter (fun e => Nat.ltb minCount (List.length (snd e))) o))%nat.
Proof.
  intros Hn. unfold groupBatches. erewrite flat_map_perm_length; [|apply perm_entries].
  induction o as [|[k v] o IH]; cbn [flat_map filter]; [reflexivity|].
  assert (Ho : nonempty_groups o) by (intros k' v' H; apply (Hn k' v'); right; exact H).
  destruct v as [|c cs]; [exfalso; apply (Hn k []); [left|]; reflexivity|].
  cbn [snd]. rewrite length_app, IH by exact Ho.
  destruct (Nat.ltb minCount (List.length (c :: cs))); cbn [List.length]; lia.
Qed.

Lemma filter_nonempty_all (o : Obj) :
  nonempty_groups o -> filter (fun e => Nat.ltb 0 (List.length (snd e))) o = o.
Proof.
  induction o as [|[k v] o IH]; intros Hn; cbn; [reflexivity|].
  destruct v as [|c cs]; [exfalso; apply (Hn k []); [left|]; reflexivity|].
  cbn. f_equal. apply IH. intros k' v' H; apply (Hn k' v'); right; exact H.
Qed.

Lemma group_into_nonempty (o o' : Obj) (ko : option string) (skip : string) (pt : LatLng) :
  nonempty_groups o -> group_into o ko skip pt = Some o' -> nonempty_groups o'.
Proof.
  intros Hn E. unfold group_into in E.
  destruct ko as [k|]; [|injection E as <-; exact Hn].
  destruct (truthy_str (Some k) && negb (String.eqb k skip))%bool; [|injection E as <-; exact Hn].
  unfold group_push in E. destruct (obj_get k o).
  - injection E as <-. clear -Hn. induction o as [|[k0 v0] o IH]; cbn; [intros ? ? []|].
    assert (Ho : nonempty_groups o) by (intros k' v' H; apply (Hn k' v'); right; exact H).
    destruct (String.eqb k k0); intros k' v' [H|H].
    + injection H as <- <-. intros Hv. exact (app_cons_not_nil v0 [] pt (eq_sym Hv)).
    + exact (Hn k' v' (or_intror H)).
    + injection H as <- <-. exact (Hn k0 v0 (or_introl eq_refl)).
    + exact (IH Ho k' v' H).
  - destruct (existsb (String.eqb k) proto_keys); [discriminate|].
    injection E as <-. intros k' v' H. apply in_app_iff in H as [H|[H|[]]].
    + exact (Hn k' v' H).
    + injection H as <- <-. discriminate.
Qed.

Lemma group_posts_nonempty (posts : list Post) :
  forall g g',
  nonempty_groups (regions g) /\ nonempty_groups (countries g) /\ nonempty_groups (cities g) ->
  group_posts g posts = Some g' ->
  nonempty_groups (regions g') /\ nonempty_groups (countries g') /\ nonempty_groups (cities g').
Proof.
  induction posts as [|p ps IH]; intros g g' Hg E; cbn [group_posts] in E.
  - injection E as <-. exact Hg.
  - destruct (group_post g p) as [g1|] eqn:E1; [|discriminate].
    apply (IH g1 g'); [|exact E].
    destruct Hg as [H1 [H2 H3]]. unfold group_post in E1.
    destruct (negb (truthy_num (latitude p) && truthy_num (longitude p))).
    { injection E1 as <-. auto. }
    destruct (latitude p), (longitude p); try (injection E1 as <-; auto).
    cbv zeta in E1.
    destruct (group_into (regions g) _ _ _) as [rg|] eqn:Er; [|discriminate].
    destruct (group_into (countries g) _ _ _) as [co|] eqn:Ec; [|discriminate].
    destruct (group_into (cities g) _ _ _) as [ci|] eqn:Ei; [|discriminate].
    injection E1 as <-. cbn [regions countries cities].
    split; [exact (group_into_nonempty _ _ _ _ _ H1 Er)|].
    split; [exact (group_into_nonempty _ _ _ _ _ H2 Ec)|].
    exact (group_into_nonempty _ _ _ _ _ H3 Ei).
Qed.

(** The pass makes two [prefetchBoundsAtZoom] calls for every continent
    group, two for every country group, and two for every city group with
    at least two posts, and no other call. *)
Theorem batches_count (posts : list Post) (g : Groups) :
  group_posts no_groups posts = Some g ->
  List.length (batches g) =
  (2 * (List.length (regions g) + List.length (countries g)
        + List.length (filter (fun e => Nat.ltb 1 (List.length (snd e))) (cities g))))%nat.
Proof.
  intros E.
  destruct (group_posts_nonempty posts no_groups g
              ltac:(repeat split; intros ? ? [])  E) as [H1 [H2 H3]].
  unfold batches. rewrite !length_app, !groupBatches_length by assumption.
  rewrite !filter_nonempty_all by assumption. lia.
Qed.

(** ** The continent keys *)

Lemma continent_key_chars (s : string) (c : ascii) :
  In c (list_ascii_of_string (replaceSpaces (toLowerCase s))) ->
  is_space c = false /\ (nat_of_ascii c < 65 \/ 90 < nat_of_ascii c)%nat.
Proof.
  induction s as [|a s IH]; cbn; [intros []|].
  intros [<-|H]; [|exact (IH H)].
  destruct (is_space (ascii_toLower a)) eqn:Hs.
  - split; [reflexivity | left; cbn; lia].
  - split; [exact Hs|]. unfold ascii_toLower.
    pose proof (nat_ascii_bounded a) as Hb.
    destruct (Nat.leb_spec 65 (nat_of_ascii a)), (Nat.leb_spec (nat_of_ascii a) 90); cbn [andb];
      try lia.
    rewrite nat_ascii_embedding by lia. lia.
Qed.

Lemma group_into_key_in (o o' : Obj) (ko : option string) (skip : string) (pt : LatLng) (k : string) :
  group_into o ko skip pt = Some o' -> In k (map fst o') -> In k (map fst o) \/ ko = Some k.
Proof.
  intros E Hk. unfold group_into in E.
  destruct ko as [s|]; [|injection E as <-; left; exact Hk].
  destruct (truthy_str (Some s) && negb (String.eqb s skip))%bool; [|injection E as <-; left; exact Hk].
  unfold group_push in E. destruct (obj_get s o).
  - injection E as <-. rewrite obj_push_keys in Hk. left; exact Hk.
  - destruct (existsb (String.eqb s) proto_keys); [discriminate|].
    injection E as <-. rewrite map_app, in_app_iff in Hk. cbn in Hk.
    destruct Hk as [Hk|[<-|[]]]; [left; exact Hk | right; reflexivity].
Qed.

(** Every continent key is normalised: it holds no whitespace character
    and no upper-case ASCII letter. *)
Theorem region_keys_normalised (posts : list Post) (g : Groups) :
  group_posts no_groups posts = Some g ->
  forall k c, In k (map fst (regions g)) -> In c (list_ascii_of_string k) ->
  is_space c = false /\ (nat_of_ascii c < 65 \/ 90 < nat_of_ascii c)%nat.
Proof.
  intros E.
  enough (G : forall ps g0 g1, group_posts g0 ps = Some g1 ->
            (forall k c, In k (map fst (regions g0)) -> In c (list_ascii_of_string k) ->
               is_space c = false /\ (nat_of_ascii c < 65 \/ 90 < nat_of_ascii c)%nat) ->
            forall k c, In k (map fst (regions g1)) -> In c (list_ascii_of_string k) ->
               is_space c = false /\ (nat_of_ascii c < 65 \/ 90 < nat_of_ascii c)%nat).
  { apply (G posts no_groups g E). intros k c []. }
  induction ps as [|p ps IH]; intros g0 g1 E0 H0; cbn [group_posts] in E0.
  - injection E0 as <-. exact H0.
  - destruct (group_post g0 p) as [g2|] eqn:E2; [|discriminate].
    apply (IH g2 g1 E0). intros k c Hk Hc.
    unfold group_post in E2.
    destruct (negb (truthy_num (latitude p) && truthy_num (longitude p))).
    { injection E2 as <-. exact (H0 k c Hk Hc). }
    destruct (latitude p), (longitude p); try (injection E2 as <-; exact (H0 k c Hk Hc)).
    cbv zeta in E2.
    destruct (group_into (regions g0) _ _ _) as [rg|] eqn:Er; [|discriminate].
    destruct (group_into (countries g0) _ _ _); [|discriminate].
    destruct (group_into (cities g0) _ _ _); [|discriminate].
    injection E2 as <-. cbn [regions] in Hk.
    destruct (group_into_key_in _ _ _ _ _ k Er Hk) as [Hk'|Hk'].
    + exact (H0 k c Hk' Hc).
    + destruct (continent p) as [s|]; [|discriminate]. cbn in Hk'. injection Hk' as <-.
      exact (continent_key_chars s c Hc).
Qed.

(** ** The bounds of the batches *)

Lemma extend_inside (b : LatLngBounds) (p q : LatLng) :
  inside b q -> inside (extend b p) q.
Proof.
  unfold inside, extend; cbn [southWest northEast lat lng].
  intros [[H1 H2] [H3 H4]].
  pose proof (Rmin_l (lat (southWest b)) (lat p)). pose proof (Rmin_l (lng (southWest b)) (lng p)).
  pose proof (Rmax_l (lat (northEast b)) (lat p)). pose proof (Rmax_l (lng (northEast b)) (lng p)).
  lra.
Qed.

Lemma extend_inside_new (b : LatLngBounds) (p : LatLng) : inside (extend b p) p.
Proof.
  unfold inside, extend; cbn [southWest northEast lat lng].
  pose proof (Rmin_r (lat (southWest b)) (lat p)). pose proof (Rmin_r (lng (southWest b)) (lng p)).
  pose proof (Rmax_r (lat (northEast b)) (lat p)). pose proof (Rmax_r (lng (northEast b)) (lng p)).
  lra.
Qed.

Lemma latLngBounds_inside (c : LatLng) (cs : list LatLng) (q : LatLng) :
  In q (c :: cs) -> inside (latLngBounds c cs) q.
Proof.
  unfold latLngBounds.
  assert (G : forall l b, inside b q \/ In q l -> inside (fold_left extend l b) q).
  { induction l as [|x l IH]; intros b H; cbn [fold_left].
    - destruct H as [H|[]]. exact H.
    - apply IH. destruct H as [H|[<-|H]].
      + left. apply extend_inside, H.
      + left. apply extend_inside_new.
      + right. exact H. }
  intros [<-|H]; apply G; [left | right; exact H].
  unfold inside; cbn; lra.
Qed.

Lemma pad_inside (b : LatLngBounds) (ratio : R) (q : LatLng) :
  (0 <= ratio)%R -> inside b q -> inside (pad b ratio) q.
Proof.
  intros Hr [[H1 H2] [H3 H4]].
  assert (Hh : (0 <= Rabs (lat (southWest b) - lat (northEast b)) * ratio)%R)
    by (apply Rmult_le_pos; [apply Rabs_pos | exact Hr]).
  assert (Hw : (0 <= Rabs (lng (southWest b) - lng (northEast b)) * ratio)%R)
    by (apply Rmult_le_pos; [apply Rabs_pos | exact Hr]).
  unfold pad, extend, inside; cbn [southWest northEast lat lng].
  set (h := (Rabs (lat (southWest b) - lat (northEast b)) * ratio)%R) in *.
  set (w := (Rabs (lng (southWest b) - lng (northEast b)) * ratio)%R) in *.
  pose proof (Rmin_l (lat (southWest b) - h) (lat (northEast b) + h)).
  pose proof (Rmin_l (lng (southWest b) - w) (lng (northEast b) + w)).
  pose proof (Rmax_r (lat (southWest b) - h) (lat (northEast b) + h)).
  pose proof (Rmax_r (lng (southWest b) - w) (lng (northEast b) + w)).
  lra.
Qed.






(** ** The index page *)

Lemma markers_of_in (posts : list Post) (m : LatLng) :
  In m (markers_of posts) <-> exists p, In p posts /\ post_point p = Some m.
Proof.
  induction posts as [|q ps IH]; cbn [markers_of In].
  - split; [intros [] | intros [p [[] _]]].
  - assert (Hq : post_point q =
      if (truthy_num (latitude q) && truthy_num (longitude q))%bool then
        match latitude q, longitude q with
        | Some la, Some lo => Some (mkLatLng la lo)
        | _, _ => None
        end
      else None) by reflexivity.
    destruct (truthy_num (latitude q) && truthy_num (longitude q))%bool eqn:T.
    + destruct (latitude q) as [la|], (longitude q) as [lo|] eqn:Eq; cbn [In].
      * split.
        -- intros [<-|H]; [exists q; rewrite Hq; auto|].
           apply IH in H as [p [Hp Hm]]. exists p; auto.
        -- intros [p [[<-|Hp] Hm]].
           ++ left. rewrite Hq in Hm. congruence.
           ++ right. apply IH. exists p; auto.
      * rewrite IH. split; [intros [p [Hp Hm]]; exists p; auto|].
        intros [p [[<-|Hp] Hm]]; [|exists p; auto].
        rewrite Hq in Hm. discriminate.
      * rewrite IH. split; [intros [p [Hp Hm]]; exists p; auto|].
        intros [p [[<-|Hp] Hm]]; [|exists p; auto].
        rewrite Hq in Hm. discriminate.
      * rewrite IH. split; [intros [p [Hp Hm]]; exists p; auto|].
        intros [p [[<-|Hp] Hm]]; [|exists p; auto].
        rewrite Hq in Hm. discriminate.
    + rewrite IH. split; [intros [p [Hp Hm]]; exists p; auto|].
      intros [p [[<-|Hp] Hm]]; [|exists p; auto].
      rewrite Hq in Hm. discriminate.
Qed.

(** On the index page, the map shows a marker for exactly the posts with
    truthy coordinates; the prefetch pass is scheduled (2000 ms later)
    exactly when there is at least one such post, and then the map is
    fitted to bounds containing every marker. *)
Theorem indexPage_markers (posts : list Post) :
  (forall m, In m (shown_markers (indexPage true (Some posts))) <->
             exists p, In p posts /\ post_point p = Some m) /\
  (prefetch_delay (indexPage true (Some posts)) = Some 2000%Z <->
   exists p, In p posts /\ post_point p <> None) /\
  (forall m, In m (shown_markers (indexPage true (Some posts))) ->
   exists bd, fitted (indexPage true (Some posts)) = Some bd /\ inside bd m).
Proof.
  unfold indexPage; cbn [negb].
  destruct (markers_of posts) as [|m0 ms] eqn:Em; cbn [shown_markers prefetch_delay fitted].
  - split; [intros m; rewrite <- markers_of_in, Em; reflexivity|].
    split; [|intros m []].
    split; [discriminate|]. intros [p [Hp Hn]].
    destruct (post_point p) as [m|] eqn:Epp; [|contradiction].
    assert (H : In m (markers_of posts)) by (apply markers_of_in; exists p; auto).
    rewrite Em in H. destruct H.
  - split; [intros m; rewrite <- markers_of_in, Em; reflexivity|].
    split.
    + split; [intros _|reflexivity].
      assert (H : In m0 (markers_of posts)) by (rewrite Em; left; reflexivity).
      apply markers_of_in in H as [p [Hp Hm]]. exists p. split; [exact Hp | congruence].
    + intros m Hm. exists (pad (latLngBounds m0 ms) (1 / 10)). split; [reflexivity|].
      apply pad_inside; [lra | apply latLngBounds_inside, Hm].
Qed.

(** ** The tile enumeration of [prefetchBoundsAtZoom] *)

Lemma zrange_cons (c d : Z) : (c <= d)%Z -> zrange c d = c :: zrange (c + 1) d.
Proof.
  intros H. unfold zrange.
  replace (Z.to_nat (d - c + 1)) with (S (Z.to_nat (d - (c + 1) + 1))) by lia.
  cbn [seq map]. f_equal; [lia|].
  rewrite <- seq_shift, map_map. apply map_ext. intros i. lia.
Qed.

Lemma zrange_nil (c d : Z) : (d < c)%Z -> zrange c d = [].
Proof. intros H. unfold zrange. replace (Z.to_nat (d - c + 1)) with 0%nat by lia. reflexivity. Qed.

Lemma zrange_in (c d y : Z) : In y (zrange c d) <-> (c <= y <= d)%Z.
Proof.
  unfold zrange. rewrite in_map_iff. split.
  - intros [i [<- Hi]]. apply in_seq in Hi. lia.
  - intros H. exists (Z.to_nat (y - c)). split; [lia|]. apply in_seq. lia.
Qed.

Lemma zrange_NoDup (c d : Z) : NoDup (zrange c d).
Proof.
  unfold zrange. generalize (seq_NoDup (Z.to_nat (d - c + 1)) 0).
  generalize (seq 0 (Z.to_nat (d - c + 1))). induction l as [|i l IH]; intros H; cbn; [constructor|].
  inversion H as [|? ? Hi Hl]; subst. constructor; [|exact (IH Hl)].
  rewrite in_map_iff. intros [j [Ej Hj]]. apply Hi. replace i with j by lia. exact Hj.
Qed.

Lemma loop_y_exact (x : int_num) (zoom : nat) (n : nat) :
  forall (fuel : nat) (c d : Z), Z.to_nat (d - c + 1) = n -> (n < fuel)%nat ->
  loop_y fuel x (JInt c) (JInt d) zoom = Some (map (fun y => mkTile x (JInt y) zoom) (zrange c d)).
Proof.
  induction n as [|n IH]; intros fuel c d Hn Hf;
    (destruct fuel as [|f]; [lia|]); cbn [loop_y int_le int_incr].
  - destruct (Z.leb_spec c d); [lia|]. rewrite zrange_nil by lia. reflexivity.
  - destruct (Z.leb_spec c d); [|lia].
    rewrite (IH f (c + 1)%Z d) by lia. rewrite (zrange_cons c d) by lia. reflexivity.
Qed.

Lemma loop_x_exact (c d : Z) (zoom : nat) (m : nat) :
  forall (fuel : nat) (a b : Z), Z.to_nat (b - a + 1) = m -> (m + Z.to_nat (d - c + 1) < fuel)%nat ->
  loop_x fuel (JInt a) (JInt b) (JInt c) (JInt d) zoom =
  Some (flat_map (fun x => map (fun y => mkTile (JInt x) (JInt y) zoom) (zrange c d)) (zrange a b)).
Proof.
  induction m as [|m IH]; intros fuel a b Hm Hf;
    (destruct fuel as [|f]; [lia|]); cbn [loop_x int_le int_incr].
  - destruct (Z.leb_spec a b); [lia|]. rewrite (zrange_nil a b) by lia. reflexivity.
  - destruct (Z.leb_spec a b); [|lia].
    rewrite (loop_y_exact (JInt a) zoom (Z.to_nat (d - c + 1)) (S f) c d) by lia.
    rewrite (IH f (a + 1)%Z b) by lia. rewrite (zrange_cons a b) by lia. reflexivity.
Qed.

(** With enough rounds, the enumeration of an integer tile rectangle lists
    every tile of the rectangle exactly once, column by column (x outer,
    y inner, both ascending). *)
Theorem enumerateTiles_exact (fuel : nat) (a b c d : Z) (zoom : nat) :
  (Z.to_nat (b - a + 1) + Z.to_nat (d - c + 1) < fuel)%nat ->
  exists tiles,
    enumerateTiles fuel (mkTileBounds (mkPoint (JInt a) (JInt c)) (mkPoint (JInt b) (JInt d))) zoom
    = Some tiles /\
    tiles = flat_map (fun x => map (fun y => mkTile (JInt x) (JInt y) zoom) (zrange c d)) (zrange a b) /\
    NoDup tiles /\
    (forall t, In t tiles <->
       exists x y, (a <= x <= b)%Z /\ (c <= y <= d)%Z /\ t = mkTile (JInt x) (JInt y) zoom).
Proof.
  intros Hf. eexists. split.
  { unfold enumerateTiles; cbn [px py tmin tmax].
    apply (loop_x_exact c d zoom (Z.to_nat (b - a + 1))); [reflexivity | exact Hf]. }
  split; [reflexivity|]. split.
  - generalize (zrange_NoDup a b). generalize (zrange a b). induction l as [|x l IH]; intros H;
      cbn [flat_map]; [constructor|].
    inversion H as [|? ? Hx Hl]; subst.
    apply NoDup_app.
    + generalize (zrange_NoDup c d). generalize (zrange c d). induction l0 as [|y l0 IH0]; intros H0;
        cbn [map]; [constructor|].
      inversion H0 as [|? ? Hy Hl0]; subst. constructor; [|exact (IH0 Hl0)].
      rewrite in_map_iff. intros [y' [Ey Hy']]. injection Ey as ->. contradiction.
    + exact (IH Hl).
    + intros t Ht1 Ht2. apply in_map_iff in Ht1 as [y [<- _]].
      apply in_flat_map in Ht2 as [x' [Hx' Ht2]]. apply in_map_iff in Ht2 as [y' [Et _]].
      injection Et as -> _. contradiction.
  - intros t. rewrite in_flat_map. split.
    + intros [x [Hx Ht]]. apply in_map_iff in Ht as [y [<- Hy]].
      apply zrange_in in Hx, Hy. exists x, y. auto.
    + intros [x [y [Hx [Hy ->]]]]. exists x. split; [apply zrange_in, Hx|].
      apply in_map_iff. exists y. split; [reflexivity | apply zrange_in, Hy].
Qed.

(** ** The requests of a pass and the tiles of its batches *)

Lemma prefetchNext_tiles (L : nat -> list Tile) (ok : Tile -> bool) (b i : nat) (st : Runtime) :
  tiles_ok L st -> tiles_ok L (prefetchNext ok b (L b) i st).
Proof.
  intros [Hr Ht]. rewrite prefetchNext_shape.
  destruct (nth_error (L b) i) as [t|] eqn:Hn; split; cbn [trace timers].
  - intros s b' k t' u Hin. apply in_app_iff in Hin as [Hin|[Hin|[]]]; [exact (Hr _ _ _ _ _ Hin)|].
    injection Hin as _ <- <- <- <-. split; [exact Hn | reflexivity].
  - intros tm Hin. apply in_app_iff in Hin as [Hin|[<-|[]]]; [exact (Ht _ Hin) | reflexivity].
  - intros s b' k t' u Hin. apply in_app_iff in Hin as [Hin|[Hin|[]]]; [exact (Hr _ _ _ _ _ Hin)|].
    discriminate.
  - exact Ht.
Qed.

Lemma pick_in (q : list Timer) (tm : Timer) (rest : list Timer) :
  pick q = Some (tm, rest) -> In tm q /\ forall x, In x rest -> In x q.
Proof.
  intros Hp. destruct (pick_split _ _ _ Hp) as [l1 [l2 [-> ->]]].
  split; [apply in_or_app; right; left; reflexivity|].
  intros x Hx. apply in_app_iff in Hx as [Hx|Hx]; apply in_or_app; [left | right; right]; exact Hx.
Qed.

Lemma run_timers_tiles (L : nat -> list Tile) (ok : Tile -> bool) (steps : nat) :
  forall st, tiles_ok L st -> tiles_ok L (run_timers ok steps st).
Proof.
  induction steps as [|n IH]; intros st Hst; cbn [run_timers]; [exact Hst|].
  destruct (pick (timers st)) as [[tm rest]|] eqn:Hp; [|exact Hst].
  destruct (pick_in _ _ _ Hp) as [Htm Hrest]. destruct Hst as [Hr Ht].
  apply IH. rewrite (Ht tm Htm). apply prefetchNext_tiles.
  split; cbn [trace timers]; [exact Hr|]. intros x Hx. exact (Ht x (Hrest x Hx)).
Qed.

Lemma startBatches_tiles (ok : Tile -> bool) (fuel : nat) (g : Groups) (bs : list (LatLngBounds * nat)) :
  forall n st,
  (forall i bz, nth_error bs i = Some bz -> nth_error (batches g) (n + i) = Some bz) ->
  tiles_ok (batch_tiles fuel g) st ->
  tiles_ok (batch_tiles fuel g) (outcome_state (startBatches ok true fuel n bs st)).
Proof.
  induction bs as [|[bd z] bs IH]; intros n st Hbs Hst; cbn [startBatches]; [exact Hst|].
  unfold prefetchBoundsAtZoom. cbn [negb].
  destruct (enumerateTiles fuel (getTileBounds bd z) z) as [tiles|] eqn:Ee; [|exact Hst].
  apply IH.
  - intros i bz Hi. replace (S n + i)%nat with (n + S i)%nat by lia. apply (Hbs (S i)). exact Hi.
  - assert (HL : firstn maxTiles tiles = batch_tiles fuel g n).
    { unfold batch_tiles. pose proof (Hbs 0%nat (bd, z) eq_refl) as H0.
      rewrite Nat.add_0_r in H0. rewrite H0, Ee. reflexivity. }
    rewrite HL. apply prefetchNext_tiles, Hst.
Qed.

Lemma pass_tiles_ok (ok : Tile -> bool) (fuel steps : nat) (posts : list Post)
    (t0 : Z) (g : Groups) :
  group_posts no_groups posts = Some g ->
  tiles_ok (batch_tiles fuel g) (outcome_state (prefetchPass ok fuel steps posts t0)).
Proof.
  intros E.
  assert (H0 : tiles_ok (batch_tiles fuel g) (mkRuntime t0 [] [])) by (split; [intros ? ? ? ? ? [] | intros ? []]).
  assert (Hs : tiles_ok (batch_tiles fuel g)
                 (outcome_state (prefetchTilesForCoffeePosts ok true fuel posts (mkRuntime t0 [] [])))).
  { unfold prefetchTilesForCoffeePosts. cbn [negb]. rewrite E.
    apply startBatches_tiles; [intros i bz Hi; exact Hi | exact H0]. }
  unfold prefetchPass.
  destruct (prefetchTilesForCoffeePosts ok true fuel posts (mkRuntime t0 [] [])) as [st|st|st];
    cbn [outcome_state] in Hs |- *; [apply run_timers_tiles, Hs | apply run_timers_tiles, Hs | exact Hs].
Qed.

(** Every request of a pass is for the tile at its index in its batch's
    [tilesToFetch] (the first 20 tiles of the rectangle the batch
    enumerates), from the URL built from that tile; and every pending
    timer carries its batch's [tilesToFetch]. *)
Theorem prefetch_requests_match (ok : Tile -> bool) (fuel steps : nat) (posts : list Post)
    (t0 : Z) (g : Groups) :
  group_posts no_groups posts = Some g ->
  tiles_ok (batch_tiles fuel g) (outcome_state (prefetchPass ok fuel steps posts t0)).
Proof. apply pass_tiles_ok. Qed.

(** ** Every batch completes *)

Lemma requested_mono (st st' : Runtime) (b k : nat) (t : Tile) :
  (forall e, In e (trace st) -> In e (trace st')) -> requested st b k t -> requested st' b k t.
Proof. intros H [s Hs]. exists s. apply H, Hs. Qed.

Lemma resolved_mono (st st' : Runtime) (b : nat) :
  (forall e, In e (trace st) -> In e (trace st')) -> resolved st b -> resolved st' b.
Proof. intros H [s Hs]. exists s. apply H, Hs. Qed.

Lemma prefetchNext_trace_grows (ok : Tile -> bool) (b : nat) (tiles : list Tile) (i : nat) (st : Runtime) :
  forall e, In e (trace st) -> In e (trace (prefetchNext ok b tiles i st)).
Proof.
  intros e He. rewrite prefetchNext_shape.
  destruct (nth_error tiles i); cbn [trace]; apply in_or_app; left; exact He.
Qed.

Lemma prefetchNext_timers_grow (ok : Tile -> bool) (b : nat) (tiles : list Tile) (i : nat) (st : Runtime) :
  forall tm, In tm (timers st) -> In tm (timers (prefetchNext ok b tiles i st)).
Proof.
  intros tm H. rewrite prefetchNext_shape.
  destruct (nth_error tiles i); cbn [timers]; [apply in_or_app; left|]; exact H.
Qed.

Lemma prefetchNext_progress (L : nat -> list Tile) (ok : Tile -> bool) (b i : nat) (st : Runtime) :
  (forall k t, (k < i)%nat -> nth_error (L b) k = Some t -> requested st b k t) ->
  (exists tm, In tm (timers (prefetchNext ok b (L b) i st)) /\ t_batch tm = b /\
     t_tiles tm = L b /\
     forall k t, (k < t_index tm)%nat -> nth_error (L b) k = Some t ->
       requested (prefetchNext ok b (L b) i st) b k t) \/
  ((forall k t, nth_error (L b) k = Some t -> requested (prefetchNext ok b (L b) i st) b k t) /\
   resolved (prefetchNext ok b (L b) i st) b).
Proof.
  intros Hreq.
  pose proof (prefetchNext_trace_grows ok b (L b) i st) as Hg.
  rewrite prefetchNext_shape in Hg |- *.
  destruct (nth_error (L b) i) as [t|] eqn:Hn.
  - left. exists (mkTimer (clock st + 50) b (L b) (S i)). cbn [timers t_batch t_tiles t_index].
    split; [apply in_or_app; right; left; reflexivity|]. split; [reflexivity|]. split; [reflexivity|].
    intros k t' Hk Ht'.
    destruct (Nat.eq_dec k i) as [->|Hne].
    + rewrite Hn in Ht'. injection Ht' as <-. exists (clock st). cbn [trace].
      apply in_or_app; right; left; reflexivity.
    + apply (requested_mono st); [exact Hg|]. apply Hreq; [lia | exact Ht'].
  - right. split.
    + intros k t' Ht'. apply (requested_mono st); [exact Hg|]. apply Hreq; [|exact Ht'].
      apply nth_error_None in Hn. assert (k < List.length (L b))%nat by (apply nth_error_Some; congruence).
      lia.
    + exists (clock st). cbn [trace]. apply in_or_app; right; left; reflexivity.
Qed.

Lemma fire_progress (L : nat -> list Tile) (nb : nat) (ok : Tile -> bool) (st : Runtime)
    (tm : Timer) (rest : list Timer) :
  progress_ok L nb st -> pick (timers st) = Some (tm, rest) ->
  progress_ok L nb (prefetchNext ok (t_batch tm) (t_tiles tm) (t_index tm)
                      (mkRuntime (due tm) rest (trace st))).
Proof.
  intros [Ht Hb] Hp.
  destruct (pick_split _ _ _ Hp) as [l1 [l2 [Hq Hr]]].
  destruct (pick_in _ _ _ Hp) as [Htm Hrest].
  rewrite (Ht tm Htm).
  set (st1 := mkRuntime (due tm) rest (trace st)).
  pose proof (prefetchNext_trace_grows ok (t_batch tm) (L (t_batch tm)) (t_index tm) st1) as Hg.
  pose proof (prefetchNext_timers_grow ok (t_batch tm) (L (t_batch tm)) (t_index tm) st1) as Hgt.
  split.
  - intros x Hx. rewrite prefetchNext_shape in Hx.
    destruct (nth_error (L (t_batch tm)) (t_index tm)); cbn [timers st1] in Hx.
    + apply in_app_iff in Hx as [Hx|[<-|[]]]; [exact (Ht x (Hrest x Hx)) | reflexivity].
    + exact (Ht x (Hrest x Hx)).
  - intros b Hbn. destruct (Hb b Hbn) as [[tw [Hw [Hwb Hwk]]]|[Hall Hres]].
    + assert (Hw' : In tw rest \/ tw = tm).
      { rewrite Hq in Hw. rewrite Hr. apply in_app_iff in Hw as [Hw|[Hw|Hw]];
          [left; apply in_or_app; left; exact Hw | right; symmetry; exact Hw |
           left; apply in_or_app; right; exact Hw]. }
      destruct Hw' as [Hw' | ->].
      * left. exists tw. split; [apply Hgt; exact Hw'|]. split; [exact Hwb|].
        intros k t Hk Hkt. apply (requested_mono st1); [exact Hg|]. exact (Hwk k t Hk Hkt).
      * subst b.
        destruct (prefetchNext_progress L ok (t_batch tm) (t_index tm) st1 Hwk)
          as [[x [Hx [Hxb [_ Hxk]]]]|H]; [left; exists x; auto | right; exact H].
    + right. split.
      * intros k t Hkt. apply (requested_mono st1); [exact Hg | exact (Hall k t Hkt)].
      * apply (resolved_mono st1); [exact Hg | exact Hres].
Qed.

Lemma run_timers_progress (L : nat -> list Tile) (nb : nat) (ok : Tile -> bool) (steps : nat) :
  forall st, progress_ok L nb st -> progress_ok L nb (run_timers ok steps st).
Proof.
  induction steps as [|n IH]; intros st Hst; cbn [run_timers]; [exact Hst|].
  destruct (pick (timers st)) as [[tm rest]|] eqn:Hp; [|exact Hst].
  apply IH. apply fire_progress; assumption.
Qed.

Lemma pick_due_none (d : Z) (q : list Timer) :
  pick_due d q = None -> forall x, In x q -> due x <> d.
Proof.
  induction q as [|y q IH]; cbn; [intros _ x []|].
  destruct (Z.eqb_spec (due y) d); [discriminate|].
  destruct (pick_due d q) as [[t r]|]; [discriminate|].
  intros _ x [<-|Hx]; [exact n | exact (IH eq_refl x Hx)].
Qed.

Lemma fold_min_attained (q : list Timer) :
  forall m0, fold_left (fun m t => Z.min m (due t)) q m0 = m0 \/
             exists x, In x q /\ fold_left (fun m t => Z.min m (due t)) q m0 = due x.
Proof.
  induction q as [|y q IH]; intros m0; cbn [fold_left]; [left; reflexivity|].
  destruct (IH (Z.min m0 (due y))) as [E|[x [Hx E]]].
  - rewrite E. destruct (Z.min_spec m0 (due y)) as [[_ ->]|[_ ->]];
      [left; reflexivity | right; exists y; split; [left|]; reflexivity].
  - right. exists x. split; [right; exact Hx | exact E].
Qed.

Lemma pick_none (q : list Timer) : pick q = None -> q = [].
Proof.
  unfold pick. destruct q as [|y q]; [reflexivity|]. intros E. exfalso.
  destruct (fold_min_attained q (due y)) as [Em|[x [Hx Em]]].
  - exact (pick_due_none _ _ E y (or_introl eq_refl) (eq_sym Em)).
  - exact (pick_due_none _ _ E x (or_intror Hx) (eq_sym Em)).
Qed.

Lemma pending_work_app (q q' : list Timer) : pending_work (q ++ q') = (pending_work q + pending_work q')%nat.
Proof. unfold pending_work. induction q as [|x q IH]; cbn [fold_right app]; [reflexivity|]. rewrite IH. lia. Qed.

Lemma pending_work_cons (tm : Timer) (q : list Timer) :
  pending_work (tm :: q) = (S (List.length (t_tiles tm) - t_index tm) + pending_work q)%nat.
Proof. reflexivity. Qed.

Lemma fire_pending (ok : Tile -> bool) (st : Runtime) (tm : Timer) (rest : list Timer) :
  pick (timers st) = Some (tm, rest) ->
  (pending_work (timers (prefetchNext ok (t_batch tm) (t_tiles tm) (t_index tm)
                           (mkRuntime (due tm) rest (trace st)))) < pending_work (timers st))%nat.
Proof.
  intros Hp. destruct (pick_split _ _ _ Hp) as [l1 [l2 [Hq ->]]].
  rewrite Hq, prefetchNext_shape.
  destruct (nth_error (t_tiles tm) (t_index tm)) as [t|] eqn:Hn; cbn [timers].
  - assert (t_index tm < List.length (t_tiles tm))%nat by (apply nth_error_Some; congruence).
    rewrite !pending_work_app, !pending_work_cons. cbn [pending_work fold_right t_tiles t_index]. lia.
  - rewrite !pending_work_app, !pending_work_cons. lia.
Qed.

Lemma run_timers_drains (ok : Tile -> bool) (steps : nat) :
  forall st, (pending_work (timers st) <= steps)%nat -> timers (run_timers ok steps st) = [].
Proof.
  induction steps as [|n IH]; intros st Hw; cbn [run_timers].
  - destruct (timers st) as [|x q]; [reflexivity|]. cbn in Hw. lia.
  - destruct (pick (timers st)) as [[tm rest]|] eqn:Hp; [|exact (pick_none _ Hp)].
    apply IH. pose proof (fire_pending ok st tm rest Hp). lia.
Qed.

Lemma startBatches_progress (ok : Tile -> bool) (fuel : nat) (g : Groups) (bs : list (LatLngBounds * nat)) :
  forall n st,
  (forall i bz, nth_error bs i = Some bz -> nth_error (batches g) (n + i) = Some bz) ->
  progress_ok (batch_tiles fuel g) n st ->
  (pending_work (timers st) <= 20 * n)%nat ->
  (exists st', startBatches ok true fuel n bs st = Hung st') \/
  (exists st', startBatches ok true fuel n bs st = Returned st' /\
     progress_ok (batch_tiles fuel g) (n + List.length bs) st' /\
     (pending_work (timers st') <= 20 * (n + List.length bs))%nat).
Proof.
  induction bs as [|[bd z] bs IH]; intros n st Hbs [Ht Hb] Hw; cbn [startBatches].
  { right. exists st. rewrite Nat.add_0_r. split; [reflexivity|]. split; [split; assumption | exact Hw]. }
  unfold prefetchBoundsAtZoom. cbn [negb].
  destruct (enumerateTiles fuel (getTileBounds bd z) z) as [tiles|] eqn:Ee; [|left; eexists; reflexivity].
  assert (HL : firstn maxTiles tiles = batch_tiles fuel g n).
  { unfold batch_tiles. pose proof (Hbs 0%nat (bd, z) eq_refl) as H0.
    rewrite Nat.add_0_r in H0. rewrite H0, Ee. reflexivity. }
  rewrite HL. set (L := batch_tiles fuel g).
  assert (HlenL : (List.length (L n) <= 20)%nat)
    by (unfold L; rewrite <- HL; exact (firstn_le_length maxTiles tiles)).
  set (st' := prefetchNext ok n (L n) 0 st).
  pose proof (prefetchNext_trace_grows ok n (L n) 0 st) as Hg.
  pose proof (prefetchNext_timers_grow ok n (L n) 0 st) as Hgt.
  destruct (IH (S n) st') as [H|[st'' [E [Hp Hw']]]].
  - intros i bz Hi. replace (S n + i)%nat with (n + S i)%nat by lia. apply (Hbs (S i)). exact Hi.
  - split.
    + intros x Hx. unfold st' in Hx. rewrite prefetchNext_shape in Hx.
      destruct (nth_error (L n) 0); cbn [timers] in Hx.
      * apply in_app_iff in Hx as [Hx|[<-|[]]]; [exact (Ht x Hx) | reflexivity].
      * exact (Ht x Hx).
    + intros b Hbn. destruct (Nat.eq_dec b n) as [->|Hne].
      * destruct (prefetchNext_progress L ok n 0 st ltac:(intros; lia))
          as [[x [Hx [Hxb [_ Hxk]]]]|H]; [left; exists x; auto | right; exact H].
      * destruct (Hb b ltac:(lia)) as [[tw [Hw1 [Hwb Hwk]]]|[Hall Hres]].
        -- left. exists tw. split; [apply Hgt, Hw1|]. split; [exact Hwb|].
           intros k t Hk Hkt. exact (requested_mono st st' b k t Hg (Hwk k t Hk Hkt)).
        -- right. split; [intros k t Hkt; exact (requested_mono st st' b k t Hg (Hall k t Hkt))|].
           exact (resolved_mono st st' b Hg Hres).
  - unfold st'. rewrite prefetchNext_shape.
    destruct (nth_error (L n) 0) as [t|] eqn:Hn; cbn [timers]; [|lia].
    rewrite pending_work_app. cbn [pending_work fold_right t_tiles t_index]. lia.
  - left. exact H.
  - right. exists st''. split; [exact E|].
    cbn [List.length]. replace (n + S (List.length bs))%nat with (S n + List.length bs)%nat by lia.
    split; assumption.
Qed.

(** Once the synchronous part of the pass has returned, at most twenty
    timer callbacks per batch complete it: when at least 20 callbacks per
    batch are allowed, either a tile enumeration never stops, or the pass
    returns with no timer left, every batch has requested each tile of its
    [tilesToFetch] (from the URL built from it) and has resolved. *)
Theorem prefetch_completes (ok : Tile -> bool) (fuel steps : nat) (posts : list Post)
    (t0 : Z) (g : Groups) :
  group_posts no_groups posts = Some g ->
  (20 * List.length (batches g) <= steps)%nat ->
  (exists st, prefetchPass ok fuel steps posts t0 = Hung st) \/
  (exists st, prefetchPass ok fuel steps posts t0 = Returned st /\ timers st = [] /\
     forall b, (b < List.length (batches g))%nat ->
       (forall k t, nth_error (batch_tiles fuel g b) k = Some t ->
          exists s, In (Request s b k t (tileUrl (tx t) (ty t) (tz t))) (trace st)) /\
       exists s, In (Resolve s b) (trace st)).
Proof.
  intros E Hs. unfold prefetchPass, prefetchTilesForCoffeePosts. cbn [negb]. rewrite E.
  destruct (startBatches_progress ok fuel g (batches g) 0 (mkRuntime t0 [] []))
    as [[st H]|[st [Hr [Hp Hw]]]].
  - intros i bz Hi. exact Hi.
  - split; [intros ? []|]. intros b Hb. lia.
  - cbn. lia.
  - left. exists st. rewrite H. reflexivity.
  - right. rewrite Hr. exists (run_timers ok steps st). split; [reflexivity|].
    split; [apply run_timers_drains; lia|].
    pose proof (run_timers_progress _ _ ok steps st Hp) as [_ Hfin].
    pose proof (run_timers_drains ok steps st ltac:(lia)) as Hnil.
    intros b Hb. destruct (Hfin b Hb) as [[tw [Hw1 _]]|[Hall Hres]].
    + rewrite Hnil in Hw1. destruct Hw1.
    + split; [exact Hall | exact Hres].
Qed.

(** ** Lazy loading *)

Lemma update_img_nth (imgs : list Img) (j : nat) (f : Img -> Img) :
  forall i, nth_error (update_img imgs j f) i =
            if Nat.eqb j i then option_map f (nth_error imgs i) else nth_error imgs i.
Proof.
  revert j. induction imgs as [|img rest IH]; intros j i.
  - destruct j, i; cbn; try destruct (Nat.eqb j i); reflexivity.
  - destruct j as [|j], i as [|i]; cbn [update_img nth_error Nat.eqb option_map]; try reflexivity.
    apply IH.
Qed.

Lemma update_img_length (imgs : list Img) (j : nat) (f : Img -> Img) :
  List.length (update_img imgs j f) = List.length imgs.
Proof.
  revert j. induction imgs as [|img rest IH]; intros [|j]; cbn; rewrite ?IH; reflexivity.
Qed.

Lemma load_image_idem (img : Img) : load_image (load_image img) = load_image img.
Proof.
  unfold load_image; cbn [src data_src class_list observed]. f_equal.
  induction (class_list img) as [|c cs IH]; cbn; [reflexivity|].
  destruct (String.eqb c "lazy"%string) eqn:E; cbn; [exact IH|]. rewrite E. cbn. f_equal. exact IH.
Qed.

Lemma callback_nth (entries : list Entry) :
  forall imgs i img, nth_error imgs i = Some img ->
  nth_error (imageObserverCallback entries imgs) i =
  Some (if existsb (fun e => isIntersecting e && Nat.eqb (target e) i)%bool entries
        then load_image img else img).
Proof.
  unfold imageObserverCallback.
  induction entries as [|e es IH]; intros imgs i img H; cbn [fold_left existsb]; [exact H|].
  destruct (isIntersecting e) eqn:Hi; cbn [andb].
  - rewrite (IH (update_img imgs (target e) load_image) i
               (if Nat.eqb (target e) i then load_image img else img)).
    + destruct (Nat.eqb (target e) i); cbn [orb]; [|reflexivity].
      destruct (existsb _ es); rewrite ?load_image_idem; reflexivity.
    + rewrite update_img_nth, H. destruct (Nat.eqb (target e) i); reflexivity.
  - apply IH, H.
Qed.

Lemma callback_length (entries : list Entry) :
  forall imgs, List.length (imageObserverCallback entries imgs) = List.length imgs.
Proof.
  unfold imageObserverCallback.
  induction entries as [|e es IH]; intros imgs; cbn [fold_left]; [reflexivity|].
  rewrite IH. destruct (isIntersecting e); [apply update_img_length | reflexivity].
Qed.

(** One call of the observer callback loads exactly the images that are
    the target of an intersecting entry: such an image gets its [data-src]
    as [src], loses the class "lazy" and is no longer observed; every other
    image is left as it is, and no image is added or removed. *)
Theorem imageObserver_effect (entries : list Entry) (imgs : list Img) (i : nat) (img : Img) :
  nth_error imgs i = Some img ->
  List.length (imageObserverCallback entries imgs) = List.length imgs /\
  nth_error (imageObserverCallback entries imgs) i =
  Some (if existsb (fun e => isIntersecting e && Nat.eqb (target e) i)%bool entries
        then mkImg (match data_src img with Some s => s | None => "undefined"%string end)
                   (data_src img)
                   (filter (fun c => negb (String.eqb c "lazy"%string)) (class_list img))
                   false
        else img).
Proof.
  intros H. split; [apply callback_length|]. exact (callback_nth entries imgs i img H).
Qed.

(** Delivering the same entries again changes nothing: the callback is
    idempotent. *)
Theorem imageObserver_idempotent (entries : list Entry) (imgs : list Img) :
  imageObserverCallback entries (imageObserverCallback entries imgs) =
  imageObserverCallback entries imgs.
Proof.
  apply nth_error_ext. intros i.
  destruct (nth_error imgs i) as [img|] eqn:H.
  - rewrite (callback_nth entries _ i _ (callback_nth entries imgs i img H)),
      (callback_nth entries imgs i img H).
    destruct (existsb _ entries); rewrite ?load_image_idem; reflexivity.
  - assert (Hn : nth_error (imageObserverCallback entries imgs) i = None).
    { apply nth_error_None. rewrite callback_length. apply nth_error_None, H. }
    rewrite Hn. apply nth_error_None. rewrite callback_length. apply nth_error_None, Hn.
Qed.

(** Every request a pass issues is for one of the first 20 tiles the
    rectangle of its batch enumerates, at the zoom level of that batch,
    which is one of 4, 6, 8, 10, 12 and 14. *)
Theorem prefetch_request_in_batch (ok : Tile -> bool) (fuel steps : nat) (posts : list Post)
    (t0 : Z) (g : Groups) :
  group_posts no_groups posts = Some g ->
  Forall (fun e =>
    match e with
    | Request s b k t u =>
        (k < maxTiles)%nat /\ u = tileUrl (tx t) (ty t) (tz t) /\
        exists bd z tiles,
          nth_error (batches g) b = Some (bd, z) /\
          enumerateTiles fuel (getTileBounds bd z) z = Some tiles /\
          nth_error tiles k = Some t /\ tz t = z /\ In z [4; 6; 8; 10; 12; 14]%nat
    | Resolve _ _ => True
    end) (trace (outcome_state (prefetchPass ok fuel steps posts t0))).
Proof.
  intros E. apply Forall_forall. intros [s b k t u|s b] Hin; [|exact I].
  destruct (proj1 (pass_tiles_ok ok fuel steps posts t0 g E) s b k t u Hin) as [Hn Hu].
  unfold batch_tiles in Hn.
  destruct (nth_error (batches g) b) as [[bd z]|] eqn:Hb; [|destruct k; discriminate].
  destruct (enumerateTiles fuel (getTileBounds bd z) z) as [tiles|] eqn:Ee; [|destruct k; discriminate].
  assert (Hk : (k < List.length (firstn maxTiles tiles))%nat) by (apply nth_error_Some; congruence).
  rewrite length_firstn in Hk.
  split; [lia|]. split; [exact Hu|].
  exists bd, z, tiles. split; [reflexivity|]. split; [exact Ee|].
  rewrite nth_error_firstn in Hn. destruct (Nat.ltb_spec k maxTiles); [|discriminate].
  split; [exact Hn|].
  split.
  - pose proof (enumerateTiles_zoom _ _ _ _ Ee) as HF. rewrite Forall_forall in HF.
    apply HF. exact (nth_error_In _ _ Hn).
  - apply nth_error_In in Hb. unfold batches in Hb. rewrite !in_app_iff in Hb.
    destruct Hb as [Hb|[Hb|Hb]]; apply in_groupBatches in Hb as [[-> | ->] _]; cbn; tauto.
Qed.

(** ** The further properties at concrete inputs *)




(** One post of Tokyo, Japan, Asia. *)
Lemma group_posts_members_witness :
  group_posts no_groups
    [mkPost (Some 10%R) (Some 20%R) (Some "Asia"%string) (Some "Japan"%string) (Some "Tokyo"%string)]
  = Some (mkGroups [("asia"%string, [mkLatLng 10 20])] [("Japan"%string, [mkLatLng 10 20])]
                   [("Tokyo"%string, [mkLatLng 10 20])]) /\
  obj_get "Japan"%string [("Japan"%string, [mkLatLng 10 20])] =
  opt_app None (members country "Unknown" "Japan"
    [mkPost (Some 10%R) (Some 20%R) (Some "Asia"%string) (Some "Japan"%string) (Some "Tokyo"%string)]).
Proof.
  assert (E : group_posts no_groups
    [mkPost (Some 10%R) (Some 20%R) (Some "Asia"%string) (Some "Japan"%string) (Some "Tokyo"%string)]
    = Some (mkGroups [("asia"%string, [mkLatLng 10 20])] [("Japan"%string, [mkLatLng 10 20])]
                     [("Tokyo"%string, [mkLatLng 10 20])])).
  { unfold group_posts, group_post; cbn [latitude longitude continent country city].
    rewrite !truthy_num_nonzero by lra. reflexivity. }
  split; [exact E|].
  exact (proj1 (proj2 (group_posts_members _ _ "Japan" E))).
Defined.

(** One post whose continent is "constructor". *)
Lemma proto_key_throws_witness :
  (exists p s, In p [mkPost (Some 1%R) (Some 1%R) (Some "constructor"%string) None None] /\
     post_point p <> None /\ In s proto_keys /\
     (continent_key p = Some s \/ country p = Some s \/ city p = Some s)) /\
  prefetchPass (fun _ => true) 10 10 [mkPost (Some 1%R) (Some 1%R) (Some "constructor"%string) None None] 0
  = Threw (mkRuntime 0 [] []).
Proof.
  assert (H : exists p s, In p [mkPost (Some 1%R) (Some 1%R) (Some "constructor"%string) None None] /\
     post_point p <> None /\ In s proto_keys /\
     (continent_key p = Some s \/ country p = Some s \/ city p = Some s)).
  { exists (mkPost (Some 1%R) (Some 1%R) (Some "constructor"%string) None None), "constructor"%string.
    split; [left; reflexivity|].
    split; [unfold post_point; cbn [latitude longitude]; rewrite truthy_num_nonzero by lra; discriminate|].
    split; [left; reflexivity | left; reflexivity]. }
  split; [exact H | exact (proto_key_throws _ H (fun _ => true) 10 10 0)].
Defined.

(** One post of Tokyo: two continent and two country batches, no city batch. *)
Lemma batches_count_witness :
  group_posts no_groups
    [mkPost (Some 10%R) (Some 20%R) (Some "Asia"%string) (Some "Japan"%string) (Some "Tokyo"%string)]
  = Some (mkGroups [("asia"%string, [mkLatLng 10 20])] [("Japan"%string, [mkLatLng 10 20])]
                   [("Tokyo"%string, [mkLatLng 10 20])]) /\
  List.length (batches (mkGroups [("asia"%string, [mkLatLng 10 20])] [("Japan"%string, [mkLatLng 10 20])]
                   [("Tokyo"%string, [mkLatLng 10 20])])) = 4%nat.
Proof.
  assert (E : group_posts no_groups
    [mkPost (Some 10%R) (Some 20%R) (Some "Asia"%string) (Some "Japan"%string) (Some "Tokyo"%string)]
    = Some (mkGroups [("asia"%string, [mkLatLng 10 20])] [("Japan"%string, [mkLatLng 10 20])]
                     [("Tokyo"%string, [mkLatLng 10 20])])).
  { unfold group_posts, group_post; cbn [latitude longitude continent country city].
    rewrite !truthy_num_nonzero by lra. reflexivity. }
  split; [exact E|]. rewrite (batches_count _ _ E). reflexivity.
Defined.

(** The continent "South America" gives the key "south-america". *)
Lemma region_keys_normalised_witness :
  group_posts no_groups
    [mkPost (Some 10%R) (Some 20%R) (Some "South America"%string) None None]
  = Some (mkGroups [("south-america"%string, [mkLatLng 10 20])] [] []) /\
  is_space "-"%char = false /\ (nat_of_ascii "-"%char < 65 \/ 90 < nat_of_ascii "-"%char)%nat.
Proof.
  assert (E : group_posts no_groups
    [mkPost (Some 10%R) (Some 20%R) (Some "South America"%string) None None]
    = Some (mkGroups [("south-america"%string, [mkLatLng 10 20])] [] [])).
  { unfold group_posts, group_post; cbn [latitude longitude continent country city].
    rewrite !truthy_num_nonzero by lra. reflexivity. }
  split; [exact E|].
  apply (region_keys_normalised _ _ E "south-america"%string "-"%char).
  - left; reflexivity.
  - vm_compute. tauto.
Defined.


(** One post at (1, 2): its marker lies in the fitted bounds. *)
Lemma indexPage_markers_witness :
  In (mkLatLng 1 2) (shown_markers (indexPage true (Some [mkPost (Some 1%R) (Some 2%R) None None None]))) /\
  exists bd, fitted (indexPage true (Some [mkPost (Some 1%R) (Some 2%R) None None None])) = Some bd /\
             inside bd (mkLatLng 1 2).
Proof.
  assert (H : In (mkLatLng 1 2)
                (shown_markers (indexPage true (Some [mkPost (Some 1%R) (Some 2%R) None None None])))).
  { unfold indexPage, markers_of; cbn [negb latitude longitude].
    rewrite !truthy_num_nonzero by lra. left; reflexivity. }
  split; [exact H|].
  exact (proj2 (proj2 (indexPage_markers [mkPost (Some 1%R) (Some 2%R) None None None])) _ H).
Defined.

(** The 2 x 2 rectangle of tiles (0..1, 0..1) at zoom 1. *)
Lemma enumerateTiles_exact_witness :
  (Z.to_nat (1 - 0 + 1) + Z.to_nat (1 - 0 + 1) < 10)%nat /\
  exists tiles,
    enumerateTiles 10 (mkTileBounds (mkPoint (JInt 0) (JInt 0)) (mkPoint (JInt 1) (JInt 1))) 1 = Some tiles /\
    tiles = flat_map (fun x => map (fun y => mkTile (JInt x) (JInt y) 1) (zrange 0 1)) (zrange 0 1) /\
    NoDup tiles /\
    (forall t, In t tiles <->
       exists x y, (0 <= x <= 1)%Z /\ (0 <= y <= 1)%Z /\ t = mkTile (JInt x) (JInt y) 1).
Proof.
  assert (H : (Z.to_nat (1 - 0 + 1) + Z.to_nat (1 - 0 + 1) < 10)%nat) by (vm_compute; lia).
  split; [exact H | exact (enumerateTiles_exact 10 0 1 0 1 1 H)].
Defined.

(** One post of Tokyo, with loads that all succeed. *)
Lemma prefetch_requests_match_witness :
  group_posts no_groups
    [mkPost (Some 10%R) (Some 20%R) (Some "Asia"%string) (Some "Japan"%string) (Some "Tokyo"%string)]
  = Some (mkGroups [("asia"%string, [mkLatLng 10 20])] [("Japan"%string, [mkLatLng 10 20])]
                   [("Tokyo"%string, [mkLatLng 10 20])]) /\
  tiles_ok (batch_tiles 100 (mkGroups [("asia"%string, [mkLatLng 10 20])] [("Japan"%string, [mkLatLng 10 20])]
                   [("Tokyo"%string, [mkLatLng 10 20])]))
    (outcome_state (prefetchPass (fun _ => true) 100 100
       [mkPost (Some 10%R) (Some 20%R) (Some "Asia"%string) (Some "Japan"%string) (Some "Tokyo"%string)] 0)).
Proof.
  assert (E : group_posts no_groups
    [mkPost (Some 10%R) (Some 20%R) (Some "Asia"%string) (Some "Japan"%string) (Some "Tokyo"%string)]
    = Some (mkGroups [("asia"%string, [mkLatLng 10 20])] [("Japan"%string, [mkLatLng 10 20])]
                     [("Tokyo"%string, [mkLatLng 10 20])])).
  { unfold group_posts, group_post; cbn [latitude longitude continent country city].
    rewrite !truthy_num_nonzero by lra. reflexivity. }
  split; [exact E | exact (prefetch_requests_match (fun _ => true) 100 100 _ 0 _ E)].
Defined.

(** One post of Tokyo (four batches) with 80 timer callbacks. *)
Lemma prefetch_completes_witness :
  group_posts no_groups
    [mkPost (Some 10%R) (Some 20%R) (Some "Asia"%string) (Some "Japan"%string) (Some "Tokyo"%string)]
  = Some (mkGroups [("asia"%string, [mkLatLng 10 20])] [("Japan"%string, [mkLatLng 10 20])]
                   [("Tokyo"%string, [mkLatLng 10 20])]) /\
  (20 * List.length (batches (mkGroups [("asia"%string, [mkLatLng 10 20])] [("Japan"%string, [mkLatLng 10 20])]
                   [("Tokyo"%string, [mkLatLng 10 20])])) <= 80)%nat /\
  ((exists st, prefetchPass (fun _ => true) 100 80
       [mkPost (Some 10%R) (Some 20%R) (Some "Asia"%string) (Some "Japan"%string) (Some "Tokyo"%string)] 0
     = Hung st) \/
   (exists st, prefetchPass (fun _ => true) 100 80
       [mkPost (Some 10%R) (Some 20%R) (Some "Asia"%string) (Some "Japan"%string) (Some "Tokyo"%string)] 0
     = Returned st /\ timers st = [])).
Proof.
  assert (E : group_posts no_groups
    [mkPost (Some 10%R) (Some 20%R) (Some "Asia"%string) (Some "Japan"%string) (Some "Tokyo"%string)]
    = Some (mkGroups [("asia"%string, [mkLatLng 10 20])] [("Japan"%string, [mkLatLng 10 20])]
                     [("Tokyo"%string, [mkLatLng 10 20])])).
  { unfold group_posts, group_post; cbn [latitude longitude continent country city].
    rewrite !truthy_num_nonzero by lra. reflexivity. }
  assert (H : (20 * List.length (batches (mkGroups [("asia"%string, [mkLatLng 10 20])]
                 [("Japan"%string, [mkLatLng 10 20])] [("Tokyo"%string, [mkLatLng 10 20])])) <= 80)%nat).
  { change (20 * 4 <= 80)%nat. lia. }
  split; [exact E|]. split; [exact H|].
  destruct (prefetch_completes (fun _ => true) 100 80 _ 0 _ E H) as [Hh|[st [Hr [Ht _]]]].
  - left. exact Hh.
  - right. exists st. split; [exact Hr | exact Ht].
Defined.

(** One post of Tokyo. *)
Lemma prefetch_request_in_batch_witness :
  group_posts no_groups
    [mkPost (Some 10%R) (Some 20%R) (Some "Asia"%string) (Some "Japan"%string) (Some "Tokyo"%string)]
  = Some (mkGroups [("asia"%string, [mkLatLng 10 20])] [("Japan"%string, [mkLatLng 10 20])]
                   [("Tokyo"%string, [mkLatLng 10 20])]) /\
  Forall (fun e => match e with Request _ _ k _ _ => (k < maxTiles)%nat | Resolve _ _ => True end)
    (trace (outcome_state (prefetchPass (fun _ => true) 100 100
       [mkPost (Some 10%R) (Some 20%R) (Some "Asia"%string) (Some "Japan"%string) (Some "Tokyo"%string)] 0))).
Proof.
  assert (E : group_posts no_groups
    [mkPost (Some 10%R) (Some 20%R) (Some "Asia"%string) (Some "Japan"%string) (Some "Tokyo"%string)]
    = Some (mkGroups [("asia"%string, [mkLatLng 10 20])] [("Japan"%string, [mkLatLng 10 20])]
                     [("Tokyo"%string, [mkLatLng 10 20])])).
  { unfold group_posts, group_post; cbn [latitude longitude continent country city].
    rewrite !truthy_num_nonzero by lra. reflexivity. }
  split; [exact E|].
  refine (Forall_impl _ _ (prefetch_request_in_batch (fun _ => true) 100 100 _ 0 _ E)).
  intros [s b k t u|s b]; [intros [Hk _]; exact Hk | intros _; exact I].
Defined.

(** One lazy image whose entry intersects. *)
Lemma imageObserver_effect_witness :
  nth_error [mkImg "" (Some "cup.jpg"%string) ["lazy"%string] true] 0 =
    Some (mkImg "" (Some "cup.jpg"%string) ["lazy"%string] true) /\
  nth_error (imageObserverCallback [mkEntry 0 true] [mkImg "" (Some "cup.jpg"%string) ["lazy"%string] true]) 0
  = Some (mkImg "cup.jpg" (Some "cup.jpg"%string) [] false).
Proof.
  split; [reflexivity|].
  exact (proj2 (imageObserver_effect [mkEntry 0 true]
    [mkImg "" (Some "cup.jpg"%string) ["lazy"%string] true] 0
    (mkImg "" (Some "cup.jpg"%string) ["lazy"%string] true) eq_refl)).
Defined.
